(** * DamageLogFileReader: the log tailer of the damage-log viewer

    A shallow embedding of [DamageLogFileReader.hpp].  The reader is a
    [QThread] whose [run] method polls one log file; a controlling
    context (the GUI) calls [start], [setLogFilePath], [setPause] and
    the destructor, and other processes write the file.  The embedding
    is a labelled transition system: one transition per statement of
    [run] (the labels are the source lines), one per call of the
    controlling context, one per change of the file system.  Every
    transition returns the effects it performs (signals emitted, file
    operations, blocking calls), so that a run yields a trace. *)

From Stdlib Require Import ZArith List Bool Lia String Strings.Byte.
From stdpp Require Import base option list gmap strings.

Local Open Scope Z_scope.

(** ** The parser collaborator

    [nclog::DamageLogParser] lives in another library.  [run] creates
    one parser, registers a per-entry callback and hands it the open
    stream once per pass; the parser object survives from pass to pass.
    It is a parameter of the development: a state, and a function from
    the bytes the stream yields to the entries called back. *)

Class Parser := {
  Entry : Type;
  PState : Type;
  parser_new : PState;
  parseStream : PState → list byte → PState * list Entry
}.

(** A parser that may be fed its input in pieces: feeding two chunks one
    after the other calls back the same entries as feeding their
    concatenation. *)
Class ChunkParser (P : Parser) := {
  parseStream_app : ∀ (s : PState) (a b : list byte),
    parseStream s (a ++ b) =
    let '(s1, e1) := parseStream s a in
    let '(s2, e2) := parseStream s1 b in (s2, e1 ++ e2)
}.

(** ** Integer conversions *)

(** [fileEnd(int)] receives a [std::streampos]: the 64-bit offset is
    narrowed to a 32-bit signed [int]. *)
Definition to_int (z : Z) : Z := (z + 2 ^ 31) mod 2 ^ 32 - 2 ^ 31.

(** The size [tellg] reports for a file of the given content. *)
Definition size_of (content : list byte) : Z := Z.of_nat (length content).

Section Reader.
Context {P : Parser}.

(** ** Signals and effects *)

(** The signals of the class, lines 152-158.  [fileEnd] carries an
    [int]. *)
Inductive Signal :=
| errorOccurred (errorString : string)
| logFilePathChanged (path : string)
| pausedChanged (paused : bool)
| fileSizeChanged (fileSize : Z)
| newLog (entry : Entry)
| fileEnd (offset : Z).

(** What a transition does that can be seen from outside: a signal is
    emitted, the file is opened (with or without success), the stream is
    read from a position to its end, the thread blocks in the timed wait
    on the pause condition or in [msleep]. *)
Inductive Effect :=
| Emit (s : Signal)
| IoOpen (path : string) (ok : bool)
| IoRead (pos : Z) (bytes : list byte)
| CondWait (ms : Z)
| MSleep (ms : Z).

(** ** State *)

(** The members of the object. *)
Record Object := {
  _stop : bool;
  _logFilePath : string;
  _fileSize : Z;
  _paused : bool
}.

(** The in-class initialisers ([_fileSize = 0], [_paused = false]); the
    atomic flag and the string are value-initialised. *)
Definition member_defaults : Object :=
  {| _stop := false; _logFilePath := ""; _fileSize := 0; _paused := false |}.

(** The constructor: its initialiser list sets [_stop(false)] and
    [_paused(true)], replacing the in-class initialiser of [_paused]. *)
Definition DamageLogFileReader_new : Object :=
  {| _stop := false;
     _logFilePath := _logFilePath member_defaults;
     _fileSize := _fileSize member_defaults;
     _paused := true |}.

Definition getLogFilePath (o : Object) : string := _logFilePath o.
Definition getFileSize (o : Object) : Z := _fileSize o.
Definition isPaused (o : Object) : bool := _paused o.

Definition set_stop (b : bool) (o : Object) : Object :=
  {| _stop := b; _logFilePath := _logFilePath o;
     _fileSize := _fileSize o; _paused := _paused o |}.
Definition set_logFilePath (p : string) (o : Object) : Object :=
  {| _stop := _stop o; _logFilePath := p;
     _fileSize := _fileSize o; _paused := _paused o |}.
Definition set_fileSize (n : Z) (o : Object) : Object :=
  {| _stop := _stop o; _logFilePath := _logFilePath o;
     _fileSize := n; _paused := _paused o |}.
Definition set_paused (b : bool) (o : Object) : Object :=
  {| _stop := _stop o; _logFilePath := _logFilePath o;
     _fileSize := _fileSize o; _paused := b |}.

(** The statement of [run] the thread executes next.  The constants of
    the loop body that are live at a statement travel with its label:
    [fileSize] from line 103 on, the stream position from the seek of
    lines 106-109 on. *)
Inductive Label :=
| L92_while
| L94_open
| L102_tellg
| L104_setFileSize (fileSize : Z)
| L106_seekg (fileSize : Z)
| L112_parseStream (pos : Z)
| L114_fileEnd
| L118_while_paused
| L120_wait
| L123_msleep.

(** The thread inside [run]: the next statement and the two locals that
    live across iterations. *)
Record Thread := {
  pc : Label;
  parser : PState;
  offset : Z
}.

(** The controlling context is either outside the object, or blocked in
    the [wait()] of [stop()] with the rest of the calling method
    pending, or has destroyed the object. *)
Inductive Pending :=
| in_setLogFilePath (path : string)
| in_destructor.

Inductive Caller :=
| Idle
| InStop (k : Pending)
| Destroyed.

Record Config := {
  self : Object;
  fs : gmap string (list byte);
  thread : option Thread;
  caller : Caller
}.

Definition with_self (o : Object) (c : Config) : Config :=
  {| self := o; fs := fs c; thread := thread c; caller := caller c |}.
Definition with_fs (m : gmap string (list byte)) (c : Config) : Config :=
  {| self := self c; fs := m; thread := thread c; caller := caller c |}.
Definition with_thread (t : option Thread) (c : Config) : Config :=
  {| self := self c; fs := fs c; thread := t; caller := caller c |}.
Definition with_caller (k : Caller) (c : Config) : Config :=
  {| self := self c; fs := fs c; thread := thread c; caller := k |}.

(** A freshly constructed reader over a given file system. *)
Definition fresh (m : gmap string (list byte)) : Config :=
  {| self := DamageLogFileReader_new; fs := m; thread := None; caller := Idle |}.

(** [QThread::isRunning]. *)
Definition isRunning (c : Config) : bool :=
  match thread c with Some _ => true | None => false end.

(** ** The thread: one transition per statement of [run] *)

Definition goto (l : Label) (t : Thread) (c : Config) : Config :=
  with_thread (Some {| pc := l; parser := parser t; offset := offset t |}) c.

(** Line 149 and what follows the call of [stop()] in the calling
    method: lines 50-54 of [setLogFilePath], or the end of the
    destructor. *)
Definition resume (k : Pending) (c : Config) : Config * list Effect :=
  let c := with_self (set_stop false (self c)) c in
  match k with
  | in_setLogFilePath path =>
      (with_caller Idle (with_self (set_logFilePath path (self c)) c),
       [Emit (logFilePathChanged path)])
  | in_destructor => (with_caller Destroyed c, [])
  end.

(** [run] returns: the thread is finished, and a caller blocked in
    [wait()] goes on. *)
Definition finish (c : Config) : Config * list Effect :=
  let c := with_thread None c in
  match caller c with
  | InStop k => resume k c
  | _ => (c, [])
  end.

(** The content a stream opened on the watched path sees. *)
Definition content_of (c : Config) : list byte :=
  default [] (fs c !! _logFilePath (self c)).

(** [setFileSize], lines 134-142. *)
Definition setFileSize (fileSize : Z) (o : Object) : Object * list Effect :=
  if _fileSize o =? fileSize then (o, [])
  else (set_fileSize fileSize o, [Emit (fileSizeChanged fileSize)]).

(** Lines 106-109: where the stream is positioned. *)
Definition seek_pos (offset fileSize : Z) : Z :=
  if (offset <? 0) || (offset >? fileSize) then 0 else offset.

(** One statement of [run], lines 92-123.  [parseStream] is handed the
    stream itself: it reads from the position sought to the end of the
    file as it is when line 112 is executed, and calls back once per
    entry.  The wait of line 120 returns when [setPause] wakes it or when
    its 1000 ms are over; either way the loop of line 118 tests its
    condition again. *)
Definition tick (c : Config) : Config * list Effect :=
  match thread c with
  | None => (c, [])
  | Some t =>
    let path := _logFilePath (self c) in
    match pc t with
    | L92_while =>
        if _stop (self c) then finish c else (goto L94_open t c, [])
    | L94_open =>
        match fs c !! path with
        | None =>
            let r := finish (with_self (set_stop true (self c)) c) in
            (r.1, IoOpen path false
                  :: Emit (errorOccurred ("Can't open file: " +:+ path)) :: r.2)
        | Some _ => (goto L102_tellg t c, [IoOpen path true])
        end
    | L102_tellg =>
        (goto (L104_setFileSize (size_of (content_of c))) t c, [])
    | L104_setFileSize fileSize =>
        let r := setFileSize fileSize (self c) in
        (goto (L106_seekg fileSize) t (with_self r.1 c), r.2)
    | L106_seekg fileSize =>
        (with_thread
           (Some {| pc := L112_parseStream (seek_pos (offset t) fileSize);
                    parser := parser t;
                    offset := fileSize |}) c, [])
    | L112_parseStream pos =>
        let fed := drop (Z.to_nat pos) (content_of c) in
        let r := parseStream (parser t) fed in
        (with_thread
           (Some {| pc := L114_fileEnd; parser := r.1; offset := offset t |}) c,
         IoRead pos fed :: map (λ e, Emit (newLog e)) r.2)
    | L114_fileEnd =>
        (goto L118_while_paused t c, [Emit (fileEnd (to_int (offset t)))])
    | L118_while_paused =>
        if _paused (self c) && negb (_stop (self c))
        then (goto L120_wait t c, [])
        else (goto L123_msleep t c, [])
    | L120_wait =>
        (goto L118_while_paused t c, [CondWait 1000])
    | L123_msleep =>
        (goto L92_while t c, [MSleep 1000])
    end
  end.

(** ** The controlling context *)

Inductive Call :=
| start
| setLogFilePath (path : string)
| setPause (pause : bool)
| destroy.

(** [stop()], lines 144-150, called on behalf of the pending method. *)
Definition stop (k : Pending) (c : Config) : Config * list Effect :=
  let c := with_self (set_stop true (self c)) c in
  if isRunning c then (with_caller (InStop k) c, []) else resume k c.

(** [QThread::start]: begins [run] in a new thread unless the thread is
    running already. *)
Definition QThread_start (c : Config) : Config :=
  if isRunning c then c
  else with_thread
         (Some {| pc := L92_while; parser := parser_new; offset := -1 |}) c.

(** One call from outside.  [setPause] only takes the mutex, so that it
    goes through whenever the object lives; the other calls come from
    the one context that owns the object, which can issue them only
    while it is not blocked inside [stop()]. *)
Definition call (m : Call) (c : Config) : Config * list Effect :=
  match caller c, m with
  | Destroyed, _ => (c, [])
  | _, setPause pause =>
      if Bool.eqb pause (_paused (self c)) then (c, [])
      else (with_self (set_paused pause (self c)) c,
            [Emit (pausedChanged pause)])
  | InStop _, _ => (c, [])
  | Idle, start => (QThread_start c, [])
  | Idle, setLogFilePath path =>
      if String.eqb path (_logFilePath (self c)) then (c, [])
      else stop (in_setLogFilePath path) c
  | Idle, destroy => stop in_destructor c
  end.

(** ** The file system *)

Inductive FsOp :=
| Append (path : string) (bytes : list byte)
| Rewrite (path : string) (content : list byte)
| Remove (path : string).

(** The stream of [run] is open from line 94 to line 113. *)
Definition stream_open (c : Config) : bool :=
  match thread c with
  | Some t =>
      match pc t with
      | L102_tellg | L104_setFileSize _ | L106_seekg _ | L112_parseStream _ =>
          true
      | _ => false
      end
  | None => false
  end.

(** Other processes append to a file (creating it if need be), truncate
    and rewrite it, or remove it; a file the reader holds open cannot be
    removed, so that the stream of a pass always has a file behind it
    (lemma [env_stream_open]). *)
Definition world (op : FsOp) (c : Config) : Config :=
  match op with
  | Append path bytes =>
      with_fs (<[path := default [] (fs c !! path) ++ bytes]> (fs c)) c
  | Rewrite path content => with_fs (<[path := content]> (fs c)) c
  | Remove path =>
      if stream_open c && String.eqb path (_logFilePath (self c)) then c
      else with_fs (delete path (fs c)) c
  end.

(** ** Runs *)

Inductive Action :=
| Tick
| Invoke (m : Call)
| World (op : FsOp).

Definition step (a : Action) (c : Config) : Config * list Effect :=
  match a with
  | Tick => tick c
  | Invoke m => call m c
  | World op => (world op c, [])
  end.

Fixpoint exec (sched : list Action) (c : Config) : Config * list Effect :=
  match sched with
  | [] => (c, [])
  | a :: sched' =>
      let '(c1, out1) := step a c in
      let '(c2, out2) := exec sched' c1 in
      (c2, out1 ++ out2)
  end.

(** ** Reading traces *)

Definition entries_of (tr : list Effect) : list Entry :=
  flat_map (λ e, match e with Emit (newLog x) => [x] | _ => [] end) tr.


Definition reads_of (tr : list Effect) : list (Z * list byte) :=
  flat_map (λ e, match e with IoRead pos b => [(pos, b)] | _ => [] end) tr.

Definition is_io (e : Effect) : bool :=
  match e with IoOpen _ _ | IoRead _ _ => true | _ => false end.

Definition fileEnds_of (tr : list Effect) : list Z :=
  flat_map (λ e, match e with Emit (fileEnd n) => [n] | _ => [] end) tr.

(** The effects of the thread: everything but the two signals the
    controlling context emits from [setLogFilePath] and [setPause]. *)
Definition by_thread (e : Effect) : bool :=
  match e with
  | Emit (logFilePathChanged _) | Emit (pausedChanged _) => false
  | _ => true
  end.

Definition thread_trace (tr : list Effect) : list Effect :=
  List.filter by_thread tr.

(** ** The order of signals

    Between two passes a size change, an entry, a batch end or an error
    may come next; within a pass (after a size change or an entry) only
    further entries and the batch end that closes it.  The two signals
    of the controlling context may fall anywhere. *)




(** ** Schedules *)

(** A stretch of a run in which the thread does not move: calls and
    file-system changes only. *)
Definition env_only (sched : list Action) : Prop :=
  Forall (λ a, a ≠ Tick) sched.

(** The thread executes one statement per element of [envs], the
    environment acting after each as the element says. *)
Fixpoint ticks_with (envs : list (list Action)) : list Action :=
  match envs with
  | [] => []
  | e :: envs' => Tick :: e ++ ticks_with envs'
  end.

(** A stretch in which other processes append to files and nothing
    else happens, and the bytes it appends to one file. *)
Definition appends_only (sched : list Action) : Prop :=
  Forall (λ a, ∃ p b, a = World (Append p b)) sched.

Definition appended (path : string) (sched : list Action) : list byte :=
  flat_map (λ a, match a with
                 | World (Append p b) => if String.eqb p path then b else []
                 | _ => []
                 end) sched.

(** Actions that start or stop nothing: the thread moves, files change,
    the reader is paused or resumed. *)
Definition bystander (a : Action) : bool :=
  match a with
  | Tick | World _ | Invoke (setPause _) => true
  | _ => false
  end.

(** What may happen around a thread while it is not its turn: files
    change, the reader is paused or resumed. *)
Definition onlooker (a : Action) : bool :=
  match a with
  | World _ | Invoke (setPause _) => true
  | _ => false
  end.

(** Actions that leave a paused reader paused and do not stop it. *)
Definition keeps_paused (a : Action) : bool :=
  match a with
  | Tick | World _ | Invoke (setPause true) | Invoke start => true
  | _ => false
  end.

Definition count_ticks (sched : list Action) : nat :=
  length (List.filter (λ a, match a with Tick => true | _ => false end) sched).

(** The number of statements the thread executes at most, from a given
    statement on, before [run] returns, once the stop flag is set. *)
Definition exit_bound (l : Label) : nat :=
  match l with
  | L92_while => 1
  | L123_msleep => 2
  | L118_while_paused => 3
  | L120_wait => 4
  | L114_fileEnd => 4
  | L112_parseStream _ => 5
  | L106_seekg _ => 6
  | L104_setFileSize _ => 7
  | L102_tellg => 8
  | L94_open => 9
  end%nat.

Definition path_changes (tr : list Effect) : list string :=
  flat_map (λ e, match e with Emit (logFilePathChanged p) => [p] | _ => [] end) tr.

(** Nothing makes the loop leave: no stop is requested and the watched
    file is there. *)
Definition steady (c : Config) : Prop :=
  _stop (self c) = false ∧ is_Some (fs c !! _logFilePath (self c)).

(** The size of the current pass has been determined and the stream
    not yet read: lines 104 to 112. *)
Definition size_pending (c : Config) : bool :=
  match thread c with
  | Some t =>
      match pc t with
      | L104_setFileSize _ | L106_seekg _ | L112_parseStream _ => true
      | _ => false
      end
  | None => false
  end.

(** Tailing a growing file: the thread runs, the reader is started,
    paused and resumed, and other processes append to files, to the
    watched one only outside lines 104 to 112. *)
Definition tailing_action (c : Config) (a : Action) : bool :=
  match a with
  | Tick | Invoke start | Invoke (setPause _) => true
  | World (Append p _) =>
      negb (size_pending c && String.eqb p (_logFilePath (self c)))
  | _ => false
  end.

Fixpoint tailing (sched : list Action) (c : Config) : bool :=
  match sched with
  | [] => true
  | a :: sched' => tailing_action c a && tailing sched' (step a c).1
  end.

(** The thread has handed the whole file to the parser. *)
Definition caught_up (c : Config) : Prop :=
  ∃ t, thread c = Some t ∧ offset t = size_of (content_of c) ∧
       ∀ pos, pc t ≠ L112_parseStream pos.

(** ** Properties as the specification words them

    Each is put to the test on a concrete run further down. *)

Definition growing_action (a : Action) : bool :=
  match a with
  | Tick | Invoke start | Invoke (setPause _) | World (Append _ _) => true
  | _ => false
  end.

(** Tailing a file that is appended to delivers the entries of a
    one-shot parse of the final file. *)
Definition spec_tailing_one_shot : Prop :=
  ∀ c sched,
    thread c = None → steady c →
    forallb growing_action sched = true →
    caught_up (exec sched c).1 →
    entries_of (exec sched c).2 =
    (parseStream parser_new (content_of (exec sched c).1)).2.

(** Bytes appended after the size determination of a pass are left to
    the next pass: the pass reads up to the size it recorded. *)
Definition spec_late_bytes_deferred : Prop :=
  ∀ c t late,
    thread c = Some t → pc t = L102_tellg → steady c →
    let pos := seek_pos (offset t) (size_of (content_of c)) in
    reads_of
      (exec (ticks_with
         [[World (Append (_logFilePath (self c)) late)]; []; []; []; []]) c).2 =
    [(pos, drop (Z.to_nat pos) (content_of c))].

(** [setLogFilePath] with another path leaves a loop running. *)
Definition spec_setPath_starts_loop : Prop :=
  ∀ c p,
    caller c = Idle → isRunning c = false → p ≠ _logFilePath (self c) →
    isRunning (call (setLogFilePath p) c).1 = true.

(** From [setPause(true)] on nothing is read and no entry delivered
    until the reader is resumed. *)
Definition spec_paused_is_silent : Prop :=
  ∀ c sched,
    forallb keeps_paused sched = true →
    let r := exec (Invoke (setPause true) :: sched) c in
    entries_of r.2 = [] ∧ forallb (λ e, negb (is_io e)) r.2 = true.

(** A stop requested during the pause wait skips the sleep. *)
Definition spec_sleep_skipped : Prop :=
  ∀ c t k sched,
    thread c = Some t → pc t = L120_wait → caller c = Idle →
    forallb bystander sched = true →
    forallb (λ e, match e with MSleep _ => false | _ => true end)
      (exec sched (stop k c).1).2 = true.

(** ** Invariants *)

(** The parser has been fed the first [n] bytes of the file and has
    called back the entries [D]; or it has not been fed yet. *)
Definition parsed_to (c : Config) (t : Thread) (n : Z) (D : list Entry) : Prop :=
  0 ≤ n ≤ size_of (content_of c) ∧
  parseStream parser_new (take (Z.to_nat n) (content_of c)) = (parser t, D).

Definition unparsed (t : Thread) (D : list Entry) : Prop :=
  parser t = parser_new ∧ D = [].

Definition tailed (c : Config) (D : list Entry) : Prop :=
  steady c ∧
  match thread c with
  | None => D = []
  | Some t =>
      match pc t with
      | L104_setFileSize s | L106_seekg s =>
          s = size_of (content_of c) ∧
          ((offset t = -1 ∧ unparsed t D) ∨ parsed_to c t (offset t) D)
      | L112_parseStream pos =>
          offset t = size_of (content_of c) ∧
          ((pos = 0 ∧ unparsed t D) ∨ parsed_to c t pos D)
      | L114_fileEnd | L118_while_paused | L120_wait | L123_msleep =>
          parsed_to c t (offset t) D
      | L92_while | L94_open | L102_tellg =>
          (offset t = -1 ∧ unparsed t D) ∨ parsed_to c t (offset t) D
      end
  end.

(** [stop()] is under way for the pending method [k], the path still
    being [old]; and [stop()] has returned and the method is over. *)
Definition stopping (k : Pending) (old : string) (c : Config) : Prop :=
  is_Some (thread c) ∧ _stop (self c) = true ∧
  caller c = InStop k ∧ _logFilePath (self c) = old.

Definition stopped_as (k : Pending) (old : string) (c : Config) : Prop :=
  thread c = None ∧ _stop (self c) = false ∧
  match k with
  | in_setLogFilePath p => caller c = Idle ∧ _logFilePath (self c) = p
  | in_destructor => caller c = Destroyed ∧ _logFilePath (self c) = old
  end.

Definition announced (k : Pending) : list string :=
  match k with in_setLogFilePath p => [p] | in_destructor => [] end.

(** The thread sits in the pause loop of lines 118-121 with the locals
    of [t0], the reader being paused and not stopped. *)
Definition blocked (t0 : Thread) (c : Config) : Prop :=
  _paused (self c) = true ∧ _stop (self c) = false ∧
  ∃ t, thread c = Some t ∧
       (pc t = L118_while_paused ∨ pc t = L120_wait) ∧
       parser t = parser t0 ∧ offset t = offset t0.

(** The number of reads a paused reader may still perform: the pause
    flag is tested after a pass only, so that a pass under way or about
    to begin is carried out. *)
Definition reads_left (c : Config) : nat :=
  match thread c with
  | None => if _stop (self c) then 0 else 1
  | Some t =>
      match pc t with
      | L114_fileEnd | L118_while_paused | L120_wait => 0
      | L92_while | L123_msleep => if _stop (self c) then 0 else 1
      | _ => 1
      end
  end%nat.


(** The offset kept by the thread against the stored file size.  Line
    104 stores the new size and line 110 the new offset, so that between
    the two the offset is the one of the previous pass. *)
Definition offset_ok (c : Config) : Prop :=
  match thread c with
  | None => True
  | Some t =>
      match pc t with
      | L92_while | L94_open | L102_tellg =>
          offset t = -1 ∨ (0 ≤ offset t ∧ offset t = _fileSize (self c))
      | L104_setFileSize s =>
          0 ≤ s ∧
          (offset t = -1 ∨ (0 ≤ offset t ∧ offset t = _fileSize (self c)))
      | L106_seekg s => 0 ≤ s ∧ _fileSize (self c) = s
      | _ => 0 ≤ offset t ∧ offset t = _fileSize (self c)
      end
  end.

(** The labels between the seek and the next loop head: the stream has
    been positioned and the offset advanced. *)
Definition past_seek (l : Label) : bool :=
  match l with
  | L112_parseStream _ | L114_fileEnd | L118_while_paused
  | L120_wait | L123_msleep => true
  | _ => false
  end.

(** The loop has given up: the thread is gone, or it is at the head of
    the loop with the stop flag set, and no [setLogFilePath] is under
    way. *)
Definition halted (c : Config) : Prop :=
  match caller c with
  | Idle =>
      _stop (self c) = true ∧
      match thread c with Some t => pc t = L92_while | None => True end
  | InStop in_destructor =>
      _stop (self c) = true ∧
      match thread c with Some t => pc t = L92_while | None => False end
  | InStop (in_setLogFilePath _) => False
  | Destroyed => thread c = None
  end.

(** ** Further readings of traces *)

Definition pause_changes (tr : list Effect) : list bool :=
  flat_map (λ e, match e with Emit (pausedChanged b) => [b] | _ => [] end) tr.

Definition size_changes (tr : list Effect) : list Z :=
  flat_map (λ e, match e with Emit (fileSizeChanged n) => [n] | _ => [] end) tr.

Definition errors_of (tr : list Effect) : list string :=
  flat_map (λ e, match e with Emit (errorOccurred m) => [m] | _ => [] end) tr.

(** The number of times the file was opened with success. *)
Definition opens_ok (tr : list Effect) : nat :=
  length (List.filter
            (λ e, match e with IoOpen _ true => true | _ => false end) tr).

(** A property that starts at [x0] and whose change signals carry
    [changes] ends at [x]: every signal carries a value other than the one
    before it, and the last one carries [x]. *)
Fixpoint changes_from {A : Type} (x0 : A) (changes : list A) (x : A) : Prop :=
  match changes with
  | [] => x = x0
  | y :: rest => y ≠ x0 ∧ changes_from y rest x
  end.

(** The thread is inside a pass: the file has been opened and the batch
    end not yet emitted (lines 102 to 114); and the stream has not been
    read yet (lines 102 to 112). *)
Definition in_pass (c : Config) : nat :=
  match thread c with
  | Some t =>
      match pc t with
      | L102_tellg | L104_setFileSize _ | L106_seekg _
      | L112_parseStream _ | L114_fileEnd => 1
      | _ => 0
      end
  | None => 0
  end%nat.

Definition unread (c : Config) : nat := if stream_open c then 1%nat else 0%nat.

(** A [setLogFilePath] that waits in [stop()] is one for another path
    than the current one (line 44 returns otherwise). *)
Definition pending_differs (c : Config) : Prop :=
  ∀ p, caller c = InStop (in_setLogFilePath p) → p ≠ _logFilePath (self c).

(** The stop flag is set for a reason: [stop()] is under way, or an
    error has been emitted. *)
Definition stop_explained (c : Config) (errors : nat) : Prop :=
  match caller c with
  | InStop _ => True
  | _ => _stop (self c) = true → errors ≠ 0%nat
  end.

(** The size last seen: the value the local [fileSize] of line 103 took
    at its last assignment in a run, [z] if the run has none. *)
Definition seen (a : Action) (c : Config) (z : Z) : Z :=
  match a, thread c with
  | Tick, Some t =>
      match pc t with
      | L102_tellg => size_of (content_of c)
      | _ => z
      end
  | _, _ => z
  end.

Fixpoint last_fileSize (sched : list Action) (c : Config) (z : Z) : Z :=
  match sched with
  | [] => z
  | a :: rest => last_fileSize rest (step a c).1 (seen a c z)
  end.


End Reader.

(** ** Two parsers to run the reader with *)

(** A line parser that keeps the unfinished last line from one call to
    the next: every completed line is an entry. *)
Fixpoint feed_lines (pending bytes : list byte) : list byte * list (list byte) :=
  match bytes with
  | [] => (pending, [])
  | b :: rest =>
      if Byte.eqb b x0a
      then let '(p, es) := feed_lines [] rest in (p, pending :: es)
      else feed_lines (pending ++ [b]) rest
  end.

Definition LineParser : Parser :=
  {| Entry := list byte; PState := list byte;
     parser_new := []; parseStream := feed_lines |}.

(** A parser that keeps nothing between calls, in the manner of a
    [std::getline] loop over the stream: every line of the stream is an
    entry, the unterminated last one included. *)
Definition getlines (bytes : list byte) : list (list byte) :=
  let '(p, es) := feed_lines [] bytes in
  match p with [] => es | _ => es ++ [p] end.

Definition GetlineParser : Parser :=
  {| Entry := list byte; PState := unit;
     parser_new := tt; parseStream := λ _ bytes, (tt, getlines bytes) |}.

(** ** Concrete files, readers and runs *)

Definition bytes (s : string) : list byte := list_byte_of_string s.
Definition nl : list byte := [x0a].
Definition line (s : string) : list byte := bytes s ++ nl.

Definition log : string := "Damage.log".

(** A reader watching [log], with a given pause flag and thread, over a
    file system that holds [log] with the given content, or nothing. *)
Definition reader {P : Parser} (paused : bool) (th : option Thread)
    (content : option (list byte)) : Config :=
  {| self := {| _stop := false; _logFilePath := log;
                _fileSize := 0; _paused := paused |};
     fs := match content with Some b => {[ log := b ]} | None => ∅ end;
     thread := th;
     caller := Idle |}.

Definition thread_at {P : Parser} (l : Label) (off : Z) : option Thread :=
  Some {| pc := l; parser := parser_new; offset := off |}.

Definition ticks (n : nat) : list Action := replicate n Tick.

(** A file of 2^31 bytes. *)
Definition huge : list byte := replicate (Z.to_nat (2 ^ 31)) x00.

(** A first pass over a file that holds one line and the sleep after
    it, a second line appended, a second pass. *)
Definition two_rounds : list Action :=
  Invoke start :: ticks 9 ++ World (Append log (line "B")) :: ticks 7.

(** The same with a file that holds an unfinished line, which is
    completed before the second pass. *)
Definition split_line : list Action :=
  Invoke start :: ticks 9 ++ World (Append log (line "C")) :: ticks 7.

(** A line appended between the size determination and the read of the
    first pass. *)
Definition late_append : list Action :=
  Invoke start :: ticks 3 ++ World (Append log (line "B")) :: ticks 13.

(** A reader in the sleep after a pass is paused, then a line is
    appended, then the thread goes on. *)
Definition pause_then_append : list Action :=
  World (Append log (line "B")) :: ticks 8.

(** * Properties *)

Section Facts.
Context {P : Parser}.
Implicit Types (c : Config) (t : Thread) (o : Object) (a : Action)
  (sched : list Action) (tr : list Effect).

(** ** Runs *)

Lemma exec_cons a sched c :
  exec (a :: sched) c =
  ((exec sched (step a c).1).1, (step a c).2 ++ (exec sched (step a c).1).2).
Proof.
  simpl. destruct (step a c) as [c1 o1]. simpl.
  by destruct (exec sched c1) as [c2 o2].
Qed.

Lemma exec_app s1 s2 c :
  exec (s1 ++ s2) c =
  ((exec s2 (exec s1 c).1).1, (exec s1 c).2 ++ (exec s2 (exec s1 c).1).2).
Proof.
  revert c. induction s1 as [|a s1 IH]; intros c.
  - simpl. by destruct (exec s2 c).
  - rewrite <- app_comm_cons, !exec_cons, IH. simpl. by rewrite app_assoc.
Qed.

Lemma exec_nil c : exec [] c = (c, []).
Proof. done. Qed.

Lemma exec_one a c : exec [a] c = step a c.
Proof. rewrite exec_cons. simpl. rewrite app_nil_r. by destruct (step a c). Qed.

(** What [finish] and [resume] leave alone. *)
Lemma resume_thread k c : thread (resume k c).1 = thread c.
Proof. by destruct k. Qed.

Lemma resume_paused k c : _paused (self (resume k c).1) = _paused (self c).
Proof. by destruct k. Qed.

Lemma resume_fileSize k c : _fileSize (self (resume k c).1) = _fileSize (self c).
Proof. by destruct k. Qed.

Lemma resume_fs k c : fs (resume k c).1 = fs c.
Proof. by destruct k. Qed.

Lemma finish_thread c : thread (finish c).1 = None.
Proof. unfold finish. simpl. destruct (caller c) as [|k|]; try done. by destruct k. Qed.

Lemma finish_paused c : _paused (self (finish c).1) = _paused (self c).
Proof. unfold finish. simpl. destruct (caller c) as [|k|]; try done. by destruct k. Qed.

Lemma finish_fileSize c : _fileSize (self (finish c).1) = _fileSize (self c).
Proof. unfold finish. simpl. destruct (caller c) as [|k|]; try done. by destruct k. Qed.

Lemma finish_fs c : fs (finish c).1 = fs c.
Proof. unfold finish. simpl. destruct (caller c) as [|k|]; try done. by destruct k. Qed.

(** Running [tick] where the thread and its label are known, and case
    analysis where they are not. *)
Ltac at_label :=
  unfold tick;
  repeat match goal with
  | H : thread ?c = _ |- context [thread ?c] => rewrite H
  | H : pc ?t = _ |- context [pc ?t] => rewrite H
  end.

Ltac by_label c :=
  let t := fresh "t" in
  let Ht := fresh "Ht" in
  let Hpc := fresh "Hpc" in
  destruct (thread c) as [t|] eqn:Ht;
  [destruct (pc t) eqn:Hpc|]; at_label.

(** Case analysis on the tests a statement makes. *)
Ltac cases_of_tick :=
  repeat match goal with
  | |- context [if ?b then _ else _] => destruct b eqn:?
  | |- context [match fs ?c !! ?p with _ => _ end] =>
      destruct (fs c !! p) eqn:?
  | |- context [setFileSize ?s ?o] => unfold setFileSize
  end.

(** ** The pause flag *)

Lemma tick_paused c : _paused (self (tick c).1) = _paused (self c).
Proof.
  by_label c; simpl; try done.
  - destruct (_stop (self c)); [apply finish_paused | done].
  - destruct (fs c !! _logFilePath (self c)); [done|].
    simpl. by rewrite finish_paused.
  - unfold setFileSize. by destruct (_ =? _).
  - by destruct (_ && _).
Qed.

Lemma call_paused m c :
  (∀ b, m ≠ setPause b) → _paused (self (call m c).1) = _paused (self c).
Proof.
  intros Hm. unfold call, stop, QThread_start.
  destruct (caller c), m; try done; try (by destruct (Hm pause)).
  - by destruct (isRunning c).
  - destruct (String.eqb _ _); [done|].
    destruct (isRunning _); [done|]. by rewrite resume_paused.
  - destruct (isRunning _); [done|]. by rewrite resume_paused.
Qed.

Lemma world_self op c : self (world op c) = self c.
Proof. destruct op; simpl; try done. by destruct (_ && _). Qed.

Lemma world_caller op c : caller (world op c) = caller c.
Proof. destruct op; simpl; try done. by destruct (_ && _). Qed.

Lemma exec_paused sched c :
  (∀ b, Invoke (setPause b) ∉ sched) →
  _paused (self (exec sched c).1) = _paused (self c).
Proof.
  revert c. induction sched as [|a sched IH]; intros c Hs; [done|].
  rewrite exec_cons. simpl. rewrite IH.
  - destruct a as [|m|op]; simpl.
    + apply tick_paused.
    + apply call_paused. intros b ->. apply (Hs b). by left.
    + by rewrite world_self.
  - intros b Hb. apply (Hs b). by right.
Qed.

(** C10.  A freshly constructed reader is paused: the constructor's
    initialiser list sets [_paused(true)] where the in-class initialiser
    says [false], so that [isPaused()] returns [true] after construction;
    and it goes on returning [true] through any run in which [setPause]
    is not called, whatever the thread, the other methods and the file
    system do. *)
Theorem constructed_paused :
  _paused member_defaults = false ∧
  isPaused DamageLogFileReader_new = true ∧
  ∀ m sched,
    (∀ b, Invoke (setPause b) ∉ sched) →
    isPaused (self (exec sched (fresh m)).1) = true.
Proof.
  split; [done|]. split; [done|].
  intros m sched Hs. unfold isPaused. by rewrite exec_paused.
Qed.

(** ** What the environment cannot change *)

Lemma thread_trace_app tr1 tr2 :
  thread_trace (tr1 ++ tr2) = thread_trace tr1 ++ thread_trace tr2.
Proof. apply List.filter_app. Qed.

Lemma thread_trace_cons e tr :
  thread_trace (e :: tr) =
  if by_thread e then e :: thread_trace tr else thread_trace tr.
Proof. done. Qed.

Lemma call_running m c t :
  thread c = Some t →
  thread (call m c).1 = Some t ∧
  _fileSize (self (call m c).1) = _fileSize (self c) ∧
  _logFilePath (self (call m c).1) = _logFilePath (self c) ∧
  fs (call m c).1 = fs c ∧
  thread_trace (call m c).2 = [].
Proof.
  intros Ht. unfold call, stop, QThread_start, isRunning.
  destruct (caller c), m; simpl; rewrite ?Ht; simpl; try done.
  - by destruct (String.eqb _ _).
  - by destruct (Bool.eqb _ _).
  - by destruct (Bool.eqb _ _).
Qed.

Lemma world_thread op c : thread (world op c) = thread c.
Proof. destruct op; simpl; try done. by destruct (_ && _). Qed.

Lemma env_running sched c t :
  env_only sched → thread c = Some t →
  thread (exec sched c).1 = Some t ∧
  _fileSize (self (exec sched c).1) = _fileSize (self c) ∧
  _logFilePath (self (exec sched c).1) = _logFilePath (self c) ∧
  thread_trace (exec sched c).2 = [].
Proof.
  revert c. induction sched as [|a sched IH]; intros c Hs Ht; [done|].
  inversion Hs as [|? ? Ha Hs']; subst. rewrite exec_cons. simpl.
  destruct a as [|m|op]; [done| |]; simpl.
  - destruct (call_running m c t Ht) as (H1 & H2 & H3 & _ & H5).
    destruct (IH _ Hs' H1) as (J1 & J2 & J3 & J4).
    rewrite thread_trace_app, H5, J4. by rewrite J2, J3, H2, H3.
  - assert (H1 : thread (world op c) = Some t) by by rewrite world_thread.
    destruct (IH _ Hs' H1) as (J1 & J2 & J3 & J4).
    by rewrite J2, J3, world_self.
Qed.

(** The file the thread holds open stays in place. *)
Lemma env_stream_open sched c :
  env_only sched → stream_open c = true →
  is_Some (fs c !! _logFilePath (self c)) →
  is_Some (fs (exec sched c).1 !! _logFilePath (self (exec sched c).1)).
Proof.
  revert c. induction sched as [|a sched IH]; intros c Hs Ho Hf; [done|].
  inversion Hs as [|? ? Ha Hs']; subst. rewrite exec_cons. simpl.
  assert (∃ t, thread c = Some t) as [t Ht].
  { unfold stream_open in Ho. destruct (thread c); [eauto|done]. }
  destruct a as [|m|op]; [done| |]; simpl; apply IH; try done.
  - destruct (call_running m c t Ht) as (H1 & _ & _ & _).
    unfold stream_open in *. rewrite H1. by rewrite Ht in Ho.
  - destruct (call_running m c t Ht) as (_ & _ & H3 & H4 & _).
    by rewrite H3, H4.
  - unfold stream_open in *. by rewrite world_thread.
  - rewrite world_self. destruct op as [p b|p b|p]; simpl.
    + rewrite lookup_insert. case_decide; [done|done].
    + rewrite lookup_insert. case_decide; [done|done].
    + rewrite Ho. simpl. destruct (String.eqb_spec p (_logFilePath (self c))).
      * done.
      * simpl. by rewrite lookup_delete_ne.
Qed.

Lemma call_thread_trace m c : thread_trace (call m c).2 = [].
Proof.
  unfold call, stop, QThread_start.
  destruct (caller c), m; simpl; try done;
    repeat match goal with
    | |- context [if ?b then _ else _] => destruct b; try done
    | |- context [resume ?k _] => destruct k; try done
    end.
Qed.

Lemma env_thread_trace sched c :
  env_only sched → thread_trace (exec sched c).2 = [].
Proof.
  revert c. induction sched as [|a sched IH]; intros c Hs; [done|].
  inversion Hs as [|? ? Ha Hs']; subst.
  rewrite exec_cons. simpl. rewrite thread_trace_app, IH by done.
  destruct a as [|m|op]; [done| |done]. simpl. by rewrite call_thread_trace.
Qed.

(** ** One statement, then the environment *)

Lemma ticks_with_cons e envs c :
  exec (ticks_with (e :: envs)) c =
  ((exec (ticks_with envs) (exec e (tick c).1).1).1,
   (tick c).2 ++ (exec e (tick c).1).2
     ++ (exec (ticks_with envs) (exec e (tick c).1).1).2).
Proof.
  change (ticks_with (e :: envs)) with (Tick :: e ++ ticks_with envs).
  rewrite exec_cons, exec_app. done.
Qed.

Lemma ticks_with_trace e envs c :
  env_only e →
  thread_trace (exec (ticks_with (e :: envs)) c).2 =
  thread_trace (tick c).2
    ++ thread_trace (exec (ticks_with envs) (exec e (tick c).1).1).2.
Proof.
  intros He. rewrite ticks_with_cons. simpl.
  by rewrite !thread_trace_app, env_thread_trace.
Qed.

Lemma ticks_with_config e envs c :
  (exec (ticks_with (e :: envs)) c).1 =
  (exec (ticks_with envs) (exec e (tick c).1).1).1.
Proof. by rewrite ticks_with_cons. Qed.

(** The statements of a pass, one by one. *)
Lemma tick_tellg c t :
  thread c = Some t → pc t = L102_tellg →
  tick c = (goto (L104_setFileSize (size_of (content_of c))) t c, []).
Proof. intros Ht Hpc. by at_label. Qed.

Lemma tick_setFileSize c t fileSize :
  thread c = Some t → pc t = L104_setFileSize fileSize →
  tick c =
  (goto (L106_seekg fileSize) t (with_self (setFileSize fileSize (self c)).1 c),
   (setFileSize fileSize (self c)).2).
Proof. intros Ht Hpc. by at_label. Qed.

Lemma tick_seekg c t fileSize :
  thread c = Some t → pc t = L106_seekg fileSize →
  tick c =
  (with_thread
     (Some {| pc := L112_parseStream (seek_pos (offset t) fileSize);
              parser := parser t; offset := fileSize |}) c, []).
Proof. intros Ht Hpc. by at_label. Qed.

Lemma tick_parseStream c t pos :
  thread c = Some t → pc t = L112_parseStream pos →
  tick c =
  let fed := drop (Z.to_nat pos) (content_of c) in
  (with_thread
     (Some {| pc := L114_fileEnd;
              parser := (parseStream (parser t) fed).1;
              offset := offset t |}) c,
   IoRead pos fed :: map (λ e, Emit (newLog e)) (parseStream (parser t) fed).2).
Proof. intros Ht Hpc. by at_label. Qed.

Lemma tick_fileEnd c t :
  thread c = Some t → pc t = L114_fileEnd →
  tick c = (goto L118_while_paused t c, [Emit (fileEnd (to_int (offset t)))]).
Proof. intros Ht Hpc. by at_label. Qed.

Lemma setFileSize_fileSize fileSize o :
  _fileSize (setFileSize fileSize o).1 = fileSize.
Proof.
  unfold setFileSize. destruct (Z.eqb_spec (_fileSize o) fileSize); done.
Qed.

Lemma thread_trace_newLog (es : list Entry) :
  thread_trace (map (λ e, Emit (newLog e)) es) = map (λ e, Emit (newLog e)) es.
Proof. induction es as [|e es IH]; [done|]. simpl. by rewrite <- IH at 2. Qed.

Lemma thread_trace_setFileSize fileSize o :
  thread_trace (setFileSize fileSize o).2 = (setFileSize fileSize o).2.
Proof. unfold setFileSize. by destruct (_ =? _). Qed.

(** A whole pass from the size determination on, whatever the
    environment does between its statements: the size recorded is the
    one seen at line 103, the stream is read as it is at line 112. *)
Lemma pass_from_tellg c t e1 e2 e3 e4 e5 :
  thread c = Some t → pc t = L102_tellg →
  env_only e1 → env_only e2 → env_only e3 → env_only e4 → env_only e5 →
  let s := size_of (content_of c) in
  let pos := seek_pos (offset t) s in
  let fed := drop (Z.to_nat pos)
               (content_of (exec (ticks_with [e1; e2; e3]) c).1) in
  let r := parseStream (parser t) fed in
  let c' := (exec (ticks_with [e1; e2; e3; e4; e5]) c).1 in
  thread c' = Some {| pc := L118_while_paused; parser := r.1; offset := s |} ∧
  _fileSize (self c') = s ∧
  thread_trace (exec (ticks_with [e1; e2; e3; e4; e5]) c).2 =
    (setFileSize s (self c)).2
      ++ IoRead pos fed :: map (λ e, Emit (newLog e)) r.2
      ++ [Emit (fileEnd (to_int s))].
Proof.
  intros Ht Hpc He1 He2 He3 He4 He5 s pos fed r c'.
  subst c' r fed.
  rewrite !ticks_with_trace, !ticks_with_config by done.
  (* line 103 *)
  rewrite (tick_tellg c t Ht Hpc). simpl fst. simpl snd. fold s.
  set (c1 := goto (L104_setFileSize s) t c).
  destruct (env_running e1 c1 _ He1 eq_refl) as (T1 & F1 & P1 & _).
  set (c1' := (exec e1 c1).1) in *.
  (* line 104 *)
  rewrite (tick_setFileSize c1' _ s T1 eq_refl). simpl fst. simpl snd.
  set (c2 := goto _ _ _).
  destruct (env_running e2 c2 _ He2 eq_refl) as (T2 & F2 & P2 & _).
  set (c2' := (exec e2 c2).1) in *.
  (* lines 106-110 *)
  rewrite (tick_seekg c2' _ s T2 eq_refl). simpl fst. simpl snd.
  set (c3 := with_thread _ c2').
  destruct (env_running e3 c3 _ He3 eq_refl) as (T3 & F3 & P3 & _).
  set (c3' := (exec e3 c3).1) in *.
  (* line 112 *)
  rewrite (tick_parseStream c3' _ pos T3 eq_refl). simpl fst. simpl snd.
  set (fed := drop (Z.to_nat pos) (content_of c3')).
  set (c4 := with_thread _ c3').
  destruct (env_running e4 c4 _ He4 eq_refl) as (T4 & F4 & P4 & _).
  set (c4' := (exec e4 c4).1) in *.
  (* line 114 *)
  rewrite (tick_fileEnd c4' _ T4 eq_refl). simpl fst. simpl snd.
  set (c5 := goto _ _ c4').
  destruct (env_running e5 c5 _ He5 eq_refl) as (T5 & F5 & P5 & _).
  split; [exact T5|]. split.
  - rewrite F5. subst c5. simpl. rewrite F4. subst c4. simpl. rewrite F3.
    subst c3. simpl. rewrite F2. subst c2. simpl.
    apply setFileSize_fileSize.
  - rewrite thread_trace_setFileSize, thread_trace_cons, thread_trace_newLog.
    unfold setFileSize. rewrite F1. subst c1. simpl.
    by destruct (_ =? _).
Qed.

(** ** The narrowing of the batch-end offset *)

Lemma to_int_range z : - 2 ^ 31 ≤ to_int z < 2 ^ 31.
Proof. unfold to_int. pose proof (Z.mod_pos_bound (z + 2 ^ 31) (2 ^ 32)). lia. Qed.

Lemma to_int_wraps z : to_int z = z - 2 ^ 32 * ((z + 2 ^ 31) / 2 ^ 32).
Proof. unfold to_int. rewrite Z.mod_eq by lia. lia. Qed.

Lemma to_int_small z : - 2 ^ 31 ≤ z < 2 ^ 31 → to_int z = z.
Proof. intros Hz. unfold to_int. rewrite Z.mod_small by lia. lia. Qed.

Lemma size_of_nonneg content : 0 ≤ size_of content.
Proof. unfold size_of. lia. Qed.

Lemma fileEnds_of_app tr1 tr2 :
  fileEnds_of (tr1 ++ tr2) = fileEnds_of tr1 ++ fileEnds_of tr2.
Proof. apply flat_map_app. Qed.

Lemma fileEnds_of_thread_trace tr : fileEnds_of (thread_trace tr) = fileEnds_of tr.
Proof.
  induction tr as [|e tr IH]; [done|].
  rewrite thread_trace_cons.
  destruct e as [[]| | | |]; simpl; by rewrite ?IH.
Qed.

Lemma fileEnds_of_newLog (es : list Entry) :
  fileEnds_of (map (λ e, Emit (newLog e)) es) = [].
Proof. by induction es. Qed.

(** C9.  The batch-end signal carries an [int], the recorded size is a
    64-bit stream position.  For a pass over a file of [s] bytes,
    whatever the environment does meanwhile, the one batch end emitted
    carries [s] narrowed to 32 bits while the offset kept is [s] itself;
    the payload is [s] reduced modulo 2^32 into the signed range; it is
    [s] when [s] is below 2^31 and differs from [s] when [s] is 2^31 or
    more. *)
Theorem fileEnd_payload_narrowed c t e1 e2 e3 e4 e5 :
  thread c = Some t → pc t = L102_tellg →
  env_only e1 → env_only e2 → env_only e3 → env_only e4 → env_only e5 →
  let s := size_of (content_of c) in
  let r := exec (ticks_with [e1; e2; e3; e4; e5]) c in
  fileEnds_of r.2 = [to_int s] ∧
  offset <$> thread r.1 = Some s ∧
  to_int s = s - 2 ^ 32 * ((s + 2 ^ 31) / 2 ^ 32) ∧
  - 2 ^ 31 ≤ to_int s < 2 ^ 31 ∧
  (s < 2 ^ 31 → to_int s = s) ∧
  (2 ^ 31 ≤ s → to_int s ≠ s).
Proof.
  intros Ht Hpc He1 He2 He3 He4 He5 s r.
  destruct (pass_from_tellg c t e1 e2 e3 e4 e5) as (T & _ & Tr); try done.
  fold s in T, Tr. fold r in T, Tr.
  repeat split.
  - rewrite <- fileEnds_of_thread_trace, Tr.
    rewrite fileEnds_of_app. simpl. rewrite fileEnds_of_app, fileEnds_of_newLog.
    unfold setFileSize. by destruct (_ =? _).
  - by rewrite T.
  - apply to_int_wraps.
  - apply to_int_range.
  - apply to_int_range.
  - intros Hs. apply to_int_small. pose proof (size_of_nonneg (content_of c)). lia.
  - intros Hs. pose proof (to_int_range s). lia.
Qed.

(** ** The order of signals in a pass *)

Lemma tick_open c t :
  thread c = Some t → pc t = L94_open →
  is_Some (fs c !! _logFilePath (self c)) →
  tick c = (goto L102_tellg t c, [IoOpen (_logFilePath (self c)) true]).
Proof. intros Ht Hpc [x Hx]. at_label. by rewrite Hx. Qed.













Lemma last_fileSize_app s1 s2 c z :
  last_fileSize (s1 ++ s2) c z =
  last_fileSize s2 (exec s1 c).1 (last_fileSize s1 c z).
Proof.
  revert c z. induction s1 as [|a s1 IH]; intros c z; [done|].
  rewrite exec_cons. cbn [fst]. simpl. apply IH.
Qed.


(** ** Failure to open the file *)

Lemma tick_open_fails c t :
  thread c = Some t → pc t = L94_open →
  fs c !! _logFilePath (self c) = None →
  tick c =
  ((finish (with_self (set_stop true (self c)) c)).1,
   IoOpen (_logFilePath (self c)) false
     :: Emit (errorOccurred ("Can't open file: " +:+ _logFilePath (self c)))
     :: (finish (with_self (set_stop true (self c)) c)).2).
Proof. intros Ht Hpc Hf. at_label. by rewrite Hf. Qed.

Lemma finish_thread_trace c : thread_trace (finish c).2 = [].
Proof. unfold finish. destruct (caller _) as [|[]|]; done. Qed.

Lemma halted_step a c :
  halted c → (∀ p, a ≠ Invoke (setLogFilePath p)) →
  halted (step a c).1 ∧ thread_trace (step a c).2 = [].
Proof.
  unfold halted. intros Hh Ha. destruct a as [|m|op]; simpl.
  - destruct (thread c) as [t|] eqn:Ht.
    + assert (pc t = L92_while ∧ _stop (self c) = true) as [Hpc Hst].
      { destruct (caller c) as [|[]|]; intuition congruence. }
      at_label. rewrite Hst. unfold finish. simpl.
      destruct (caller c) as [|[]|] eqn:Hc; simpl; rewrite ?Hc;
        intuition congruence.
    + at_label. simpl. by rewrite Ht.
  - split; [|apply call_thread_trace].
    unfold call, stop, QThread_start, isRunning.
    destruct (thread c) as [t|] eqn:Ht;
      destruct (caller c) as [|[]|] eqn:Hc; destruct m;
      try (by destruct (Ha path));
      simpl; rewrite ?Hc, ?Ht; simpl; rewrite ?Hc, ?Ht;
      try (destruct (Bool.eqb _ _); simpl; rewrite ?Hc, ?Ht);
      intuition congruence.
  - split; [|done]. by rewrite world_self, world_thread, world_caller.
Qed.

Lemma halted_exec sched c :
  halted c → (∀ p, Invoke (setLogFilePath p) ∉ sched) →
  thread_trace (exec sched c).2 = [].
Proof.
  revert c. induction sched as [|a sched IH]; intros c H Hs; [done|].
  rewrite exec_cons. simpl. rewrite thread_trace_app.
  destruct (halted_step a c H) as [H' ->].
  - intros p ->. apply (Hs p). by left.
  - apply IH; [done|]. intros p Hp. apply (Hs p). by right.
Qed.

(** C5.  When the file cannot be opened the thread sets the stop flag,
    performs the one failed open, emits one error signal carrying the
    path, and [run] returns.  From then on, in any run in which
    [setLogFilePath] is not called, the thread does nothing at all: no
    file is opened or read and no signal is emitted, even if the thread
    is started again. *)
Theorem open_failure_terminal c t :
  thread c = Some t → pc t = L94_open →
  fs c !! _logFilePath (self c) = None →
  thread (tick c).1 = None ∧
  thread_trace (tick c).2 =
    [IoOpen (_logFilePath (self c)) false;
     Emit (errorOccurred ("Can't open file: " +:+ _logFilePath (self c)))] ∧
  (caller c = Idle → _stop (self (tick c).1) = true) ∧
  ((∀ p, caller c ≠ InStop (in_setLogFilePath p)) →
   ∀ sched, (∀ p, Invoke (setLogFilePath p) ∉ sched) →
     thread_trace (exec sched (tick c).1).2 = []).
Proof.
  intros Ht Hpc Hf. rewrite (tick_open_fails c t Ht Hpc Hf). cbn [fst snd].
  split; [apply finish_thread|]. split.
  { rewrite !thread_trace_cons. cbn [by_thread]. by rewrite finish_thread_trace. }
  split.
  { intros Hc. unfold finish. simpl. by rewrite Hc. }
  intros Hc sched Hs. apply halted_exec; [|done].
  unfold halted, finish. simpl.
  destruct (caller c) as [|[q|]|] eqn:E; simpl; rewrite ?E; try done.
  by destruct (Hc q).
Qed.

(** ** The offset and the file size *)

Lemma finish_offset_ok c : offset_ok (finish c).1.
Proof. unfold offset_ok. by rewrite finish_thread. Qed.

Lemma tick_offset_ok c : offset_ok c → offset_ok (tick c).1.
Proof.
  unfold offset_ok. intros Hok. by_label c; cases_of_tick;
    cbn [fst snd]; rewrite ?finish_thread; try done; simpl;
    rewrite ?Ht; try lia.
  split; [apply size_of_nonneg | done].
Qed.

Lemma call_offset_ok m c : offset_ok c → offset_ok (call m c).1.
Proof.
  unfold offset_ok. intros Hok.
  destruct (thread c) as [t|] eqn:Ht.
  - destruct (call_running m c t Ht) as (-> & -> & _). done.
  - unfold call, stop, QThread_start, isRunning.
    destruct (caller c) as [|[]|], m; simpl; rewrite ?Ht; simpl;
      rewrite ?Ht; try done;
      repeat match goal with
      | |- context [if ?b then _ else _] =>
          destruct b; simpl; rewrite ?Ht; try done
      end.
    by left.
Qed.

Lemma exec_offset_ok sched c : offset_ok c → offset_ok (exec sched c).1.
Proof.
  revert c. induction sched as [|a sched IH]; intros c Hok; [done|].
  rewrite exec_cons. simpl. apply IH. destruct a as [|m|op]; simpl.
  - by apply tick_offset_ok.
  - by apply call_offset_ok.
  - unfold offset_ok in *. by rewrite world_thread, world_self.
Qed.

Lemma reads_of_app tr1 tr2 :
  reads_of (tr1 ++ tr2) = reads_of tr1 ++ reads_of tr2.
Proof. apply flat_map_app. Qed.

Lemma reads_of_thread_trace tr : reads_of (thread_trace tr) = reads_of tr.
Proof.
  induction tr as [|e tr IH]; [done|].
  rewrite thread_trace_cons.
  destruct e as [[]| | | |]; simpl; by rewrite ?IH.
Qed.

Lemma reads_of_newLog (es : list Entry) :
  reads_of (map (λ e, Emit (newLog e)) es) = [].
Proof. by induction es. Qed.

Lemma reads_of_setFileSize fileSize o : reads_of (setFileSize fileSize o).2 = [].
Proof. unfold setFileSize. by destruct (_ =? _). Qed.

(** What a pass reads, whatever the environment does meanwhile. *)
Lemma pass_reads c t e1 e2 e3 e4 e5 :
  thread c = Some t → pc t = L102_tellg →
  env_only e1 → env_only e2 → env_only e3 → env_only e4 → env_only e5 →
  let pos := seek_pos (offset t) (size_of (content_of c)) in
  reads_of (exec (ticks_with [e1; e2; e3; e4; e5]) c).2 =
  [(pos, drop (Z.to_nat pos)
           (content_of (exec (ticks_with [e1; e2; e3]) c).1))].
Proof.
  intros Ht Hpc He1 He2 He3 He4 He5 pos.
  destruct (pass_from_tellg c t e1 e2 e3 e4 e5) as (_ & _ & Tr); try done.
  rewrite <- reads_of_thread_trace, Tr.
  rewrite reads_of_app, reads_of_setFileSize. simpl.
  by rewrite reads_of_app, reads_of_newLog.
Qed.

(** ** Runs in which the file only grows *)

Lemma appends_only_env sched : appends_only sched → env_only sched.
Proof.
  unfold appends_only, env_only. intros Hs.
  eapply Forall_impl; [exact Hs|]. by intros a (p & b & ->).
Qed.

Lemma content_of_append c p b :
  content_of (world (Append p b) c) =
  content_of c ++ (if String.eqb p (_logFilePath (self c)) then b else []).
Proof.
  unfold content_of. simpl.
  destruct (String.eqb_spec p (_logFilePath (self c))) as [->|Hne].
  - by rewrite lookup_insert_eq.
  - by rewrite lookup_insert_ne, app_nil_r.
Qed.

Lemma appends_exec sched c :
  appends_only sched →
  thread (exec sched c).1 = thread c ∧
  self (exec sched c).1 = self c ∧
  caller (exec sched c).1 = caller c ∧
  (exec sched c).2 = [] ∧
  content_of (exec sched c).1 =
    content_of c ++ appended (_logFilePath (self c)) sched ∧
  (steady c → steady (exec sched c).1).
Proof.
  revert c. induction sched as [|a sched IH]; intros c Hs.
  { simpl. by rewrite app_nil_r. }
  inversion Hs as [|? ? (p & b & ->) Hs']; subst.
  rewrite exec_cons. cbn [step fst snd].
  destruct (IH (world (Append p b) c) Hs') as (T & S & K & O & C & St).
  rewrite T, S, K, O, C, content_of_append.
  rewrite world_thread, world_self, world_caller, <- app_assoc.
  do 5 (split; [done|]).
  intros [H1 H2]. apply St. split; [done|]. simpl.
  rewrite lookup_insert. case_decide; [done|done].
Qed.

Lemma appended_app p s1 s2 : appended p (s1 ++ s2) = appended p s1 ++ appended p s2.
Proof. apply flat_map_app. Qed.

(** The statements between two passes. *)
Lemma tick_while c t :
  thread c = Some t → pc t = L92_while → _stop (self c) = false →
  tick c = (goto L94_open t c, []).
Proof. intros Ht Hpc Hs. at_label. by rewrite Hs. Qed.

Lemma tick_while_stop c t :
  thread c = Some t → pc t = L92_while → _stop (self c) = true →
  tick c = finish c.
Proof. intros Ht Hpc Hs. at_label. by rewrite Hs. Qed.

Lemma tick_while_paused c t :
  thread c = Some t → pc t = L118_while_paused →
  tick c =
  (goto (if _paused (self c) && negb (_stop (self c))
         then L120_wait else L123_msleep) t c, []).
Proof. intros Ht Hpc. at_label. by destruct (_ && _). Qed.

Lemma tick_wait c t :
  thread c = Some t → pc t = L120_wait →
  tick c = (goto L118_while_paused t c, [CondWait 1000]).
Proof. intros Ht Hpc. by at_label. Qed.

Lemma tick_msleep c t :
  thread c = Some t → pc t = L123_msleep →
  tick c = (goto L92_while t c, [MSleep 1000]).
Proof. intros Ht Hpc. by at_label. Qed.

(** From the pause check to the next size determination, when the
    reader is neither paused nor stopped and the file only grows. *)
Lemma idle_to_tellg c t e1 e2 e3 e4 :
  thread c = Some t → pc t = L118_while_paused →
  steady c → _paused (self c) = false →
  appends_only e1 → appends_only e2 → appends_only e3 → appends_only e4 →
  let r := exec (ticks_with [e1; e2; e3; e4]) c in
  thread r.1 =
    Some {| pc := L102_tellg; parser := parser t; offset := offset t |} ∧
  self r.1 = self c ∧
  thread_trace r.2 = [MSleep 1000; IoOpen (_logFilePath (self c)) true] ∧
  content_of r.1 =
    content_of c ++ appended (_logFilePath (self c)) (e1 ++ e2 ++ e3 ++ e4).
Proof.
  intros Ht Hpc [Hs Hf] Hp A1 A2 A3 A4. cbv zeta.
  rewrite !ticks_with_trace, !ticks_with_config
    by auto using appends_only_env.
  change (ticks_with []) with (@nil Action). rewrite exec_nil. cbn [fst snd].
  (* line 118 *)
  rewrite (tick_while_paused c t Ht Hpc), Hp, Hs. cbn [andb fst snd].
  set (c1 := goto L123_msleep t c).
  destruct (appends_exec e1 c1 A1) as (T1 & S1 & _ & _ & C1 & St1).
  change (self c1) with (self c) in S1, C1.
  change (content_of c1) with (content_of c) in C1.
  (* line 123 *)
  rewrite (tick_msleep _ _ T1 eq_refl). cbn [fst snd].
  set (c2 := goto L92_while _ _).
  destruct (appends_exec e2 c2 A2) as (T2 & S2 & _ & _ & C2 & St2).
  change (self c2) with (self (exec e1 c1).1) in S2, C2.
  change (content_of c2) with (content_of (exec e1 c1).1) in C2.
  rewrite S1 in S2, C2. rewrite C1 in C2.
  (* line 92 *)
  rewrite (tick_while _ _ T2 eq_refl) by by rewrite S2.
  cbn [fst snd].
  set (c3 := goto L94_open _ _).
  destruct (appends_exec e3 c3 A3) as (T3 & S3 & _ & _ & C3 & St3).
  change (self c3) with (self (exec e2 c2).1) in S3, C3.
  change (content_of c3) with (content_of (exec e2 c2).1) in C3.
  rewrite S2 in S3, C3. rewrite C2 in C3.
  (* line 94 *)
  assert (steady (exec e3 c3).1) as [_ Hf3].
  { apply St3, St2, St1. by split. }
  rewrite (tick_open _ _ T3 eq_refl Hf3). cbn [fst snd].
  set (c4 := goto L102_tellg _ _).
  destruct (appends_exec e4 c4 A4) as (T4 & S4 & _ & _ & C4 & St4).
  change (self c4) with (self (exec e3 c3).1) in S4, C4.
  change (content_of c4) with (content_of (exec e3 c3).1) in C4.
  rewrite S3 in S4, C4. rewrite C3 in C4.
  split; [exact T4|]. split; [exact S4|]. split.
  { by rewrite S3. }
  rewrite C4, !appended_app. by rewrite <- !app_assoc.
Qed.

Lemma steady_tick c :
  steady c →
  fs (tick c).1 = fs c ∧ caller (tick c).1 = caller c ∧
  _stop (self (tick c).1) = _stop (self c) ∧
  _paused (self (tick c).1) = _paused (self c) ∧
  _logFilePath (self (tick c).1) = _logFilePath (self c).
Proof.
  intros [Hs [x Hf]]. by_label c; rewrite ?Hs, ?Hf; try done.
  - unfold setFileSize. by destruct (_ =? _).
  - by destruct (_ && _).
Qed.

Lemma steady_ticks envs c :
  steady c → Forall appends_only envs →
  let r := exec (ticks_with envs) c in
  steady r.1 ∧
  _paused (self r.1) = _paused (self c) ∧
  _logFilePath (self r.1) = _logFilePath (self c) ∧
  caller r.1 = caller c ∧
  content_of r.1 =
    content_of c ++ appended (_logFilePath (self c)) (concat envs).
Proof.
  revert c. induction envs as [|e envs IH]; intros c Hst He; cbv zeta.
  { simpl. by rewrite app_nil_r. }
  inversion He as [|? ? He1 He2]; subst.
  rewrite ticks_with_config.
  destruct (steady_tick c Hst) as (F & K & S & Pa & Lp).
  destruct (appends_exec e (tick c).1 He1) as (_ & S1 & K1 & _ & C1 & St1).
  assert (Hst1 : steady (tick c).1).
  { destruct Hst as [H1 H2]. split; [by rewrite S|]. by rewrite F, Lp. }
  destruct (IH _ (St1 Hst1) He2) as (St2 & P2 & L2 & K2 & C2).
  split; [exact St2|].
  rewrite P2, L2, K2, C2, S1, K1, C1, Pa, Lp, K.
  do 3 (split; [done|]).
  unfold content_of at 1. rewrite F, Lp. fold (content_of c).
  simpl. by rewrite appended_app, <- app_assoc.
Qed.

Lemma ticks_with_app envs1 envs2 :
  ticks_with (envs1 ++ envs2) = ticks_with envs1 ++ ticks_with envs2.
Proof.
  induction envs1 as [|e envs1 IH]; [done|].
  simpl. by rewrite IH, <- app_assoc.
Qed.

Lemma drop_size_of_app (a b : list byte) : drop (Z.to_nat (size_of a)) (a ++ b) = b.
Proof. unfold size_of. rewrite Nat2Z.id. by rewrite drop_app_length. Qed.

Lemma size_of_app (a b : list byte) : size_of (a ++ b) = size_of a + size_of b.
Proof. unfold size_of. rewrite length_app. lia. Qed.

Lemma seek_pos_grown (a b : list byte) :
  seek_pos (size_of a) (size_of (a ++ b)) = size_of a.
Proof.
  unfold seek_pos. rewrite size_of_app.
  pose proof (size_of_nonneg a). pose proof (size_of_nonneg b).
  replace (size_of a <? 0) with false by lia.
  by replace (size_of a >? size_of a + size_of b) with false by lia.
Qed.

(** Two passes in a row over a file that only grows: the second pass
    starts at the size the first one recorded. *)
Lemma two_passes c t e1 e2 e3 e4 e5 e6 e7 e8 e9 e10 e11 e12 e13 e14 :
  thread c = Some t → pc t = L102_tellg →
  steady c → _paused (self c) = false →
  Forall appends_only [e1; e2; e3; e4; e5; e6; e7; e8; e9; e10; e11; e12; e13; e14] →
  let path := _logFilePath (self c) in
  let s := size_of (content_of c) in
  let pos := seek_pos (offset t) s in
  reads_of
    (exec (ticks_with [e1; e2; e3; e4; e5; e6; e7; e8; e9; e10; e11; e12; e13; e14]) c).2 =
  [(pos, drop (Z.to_nat pos)
           (content_of c ++ appended path (e1 ++ e2 ++ e3)));
   (s, appended path
         (e1 ++ e2 ++ e3 ++ e4 ++ e5 ++ e6 ++ e7 ++ e8 ++ e9 ++ e10 ++ e11 ++ e12))].
Proof.
  intros Ht Hpc Hst Hp He path s pos.
  repeat match goal with
  | H : Forall _ (_ :: _) |- _ =>
      let A := fresh "A" in inversion H as [|? ? A ?]; subst; clear H
  | H : Forall _ [] |- _ => clear H
  end.
  change [e1; e2; e3; e4; e5; e6; e7; e8; e9; e10; e11; e12; e13; e14]
    with ([e1; e2; e3; e4; e5] ++ [e6; e7; e8; e9] ++ [e10; e11; e12; e13; e14]).
  rewrite !ticks_with_app, !exec_app. cbn [fst snd]. rewrite !reads_of_app.
  (* the first pass *)
  destruct (pass_from_tellg c t e1 e2 e3 e4 e5) as (T1 & _ & _);
    auto using appends_only_env.
  rewrite (pass_reads c t) by auto using appends_only_env.
  destruct (steady_ticks [e1; e2; e3] c Hst) as (_ & _ & _ & _ & C13);
    [by repeat constructor|].
  destruct (steady_ticks [e1; e2; e3; e4; e5] c Hst) as (St1 & P1 & L1 & _ & C1);
    [by repeat constructor|].
  set (c1 := (exec (ticks_with [e1; e2; e3; e4; e5]) c).1) in *.
  (* between the passes *)
  destruct (idle_to_tellg c1 _ e6 e7 e8 e9 T1 eq_refl St1) as (T2 & S2 & Tr2 & C2);
    try done; [by rewrite P1|].
  set (c2 := (exec (ticks_with [e6; e7; e8; e9]) c1).1) in *.
  assert (St2 : steady c2).
  { by destruct (steady_ticks [e6; e7; e8; e9] c1 St1); [repeat constructor|]. }
  rewrite <- (reads_of_thread_trace (exec (ticks_with [e6; e7; e8; e9]) c1).2), Tr2.
  (* the second pass *)
  rewrite (pass_reads c2 _ e10 e11 e12 e13 e14 T2 eq_refl)
    by auto using appends_only_env.
  destruct (steady_ticks [e10; e11; e12] c2 St2) as (_ & _ & _ & _ & C3);
    [by repeat constructor|].
  rewrite C3, C13, C2, C1, S2, L1. cbn [offset concat]. fold path s.
  rewrite !app_nil_r, !appended_app, <- !app_assoc.
  subst s. rewrite seek_pos_grown, drop_size_of_app. done.
Qed.

(** C3 (amended).  At the seek of a pass the stream is positioned at 0
    when the offset is still the initial -1 of a new thread or exceeds the
    size just determined, and at the offset otherwise; the same statement
    sets the offset to that size, before the parser is fed (the parser
    state is untouched and nothing has been emitted).  A thread starts
    with offset -1.  Hence, over two passes in a row on a file that only
    grows, the second pass reads from the size the first one recorded:
    what it reads is exactly the bytes appended since that size was
    determined, those appended before the first read included. *)
Theorem seek_then_record :
  (∀ c t fileSize,
     thread c = Some t → pc t = L106_seekg fileSize →
     ∃ pos,
       tick c =
       (with_thread
          (Some {| pc := L112_parseStream pos;
                   parser := parser t; offset := fileSize |}) c, []) ∧
       (offset t < 0 ∨ fileSize < offset t → pos = 0) ∧
       (0 ≤ offset t ≤ fileSize → pos = offset t)) ∧
  (∀ c, isRunning c = false →
     offset <$> thread (QThread_start c) = Some (-1)) ∧
  (∀ c t e1 e2 e3 e4 e5 e6 e7 e8 e9 e10 e11 e12 e13 e14,
     thread c = Some t → pc t = L102_tellg →
     steady c → _paused (self c) = false →
     Forall appends_only
       [e1; e2; e3; e4; e5; e6; e7; e8; e9; e10; e11; e12; e13; e14] →
     let path := _logFilePath (self c) in
     let s := size_of (content_of c) in
     let pos := seek_pos (offset t) s in
     reads_of
       (exec (ticks_with
          [e1; e2; e3; e4; e5; e6; e7; e8; e9; e10; e11; e12; e13; e14]) c).2 =
     [(pos, drop (Z.to_nat pos)
              (content_of c ++ appended path (e1 ++ e2 ++ e3)));
      (s, appended path
            (e1 ++ e2 ++ e3 ++ e4 ++ e5 ++ e6 ++ e7 ++ e8 ++ e9
                ++ e10 ++ e11 ++ e12))]).
Proof.
  split; [|split].
  - intros c t fileSize Ht Hpc. exists (seek_pos (offset t) fileSize).
    split; [by apply tick_seekg|]. unfold seek_pos. split.
    + intros [Hlt|Hgt].
      * by replace (offset t <? 0) with true by lia.
      * replace (offset t >? fileSize) with true by lia.
        by rewrite orb_true_r.
    + intros Hin. replace (offset t <? 0) with false by lia.
      by replace (offset t >? fileSize) with false by lia.
  - intros c Hr. unfold QThread_start. by rewrite Hr.
  - intros. by apply two_passes.
Qed.

(** ** Tailing against a one-shot parse *)

Lemma entries_of_app tr1 tr2 :
  entries_of (tr1 ++ tr2) = entries_of tr1 ++ entries_of tr2.
Proof. apply flat_map_app. Qed.

Lemma entries_of_newLog (es : list Entry) :
  entries_of (map (λ e, Emit (newLog e)) es) = es.
Proof. induction es as [|e es IH]; [done|]. simpl. by rewrite IH. Qed.

Lemma reads_of_pass tr pos fed (es : list Entry) n :
  reads_of (tr ++ IoRead pos fed :: map (λ e, Emit (newLog e)) es
               ++ [Emit (fileEnd n)]) =
  reads_of tr ++ [(pos, fed)].
Proof.
  rewrite reads_of_app. f_equal.
  change (reads_of (IoRead pos fed :: ?l)) with ((pos, fed) :: reads_of l).
  by rewrite reads_of_app, reads_of_newLog.
Qed.

Lemma entries_of_pass tr pos fed (es : list Entry) n :
  entries_of (tr ++ IoRead pos fed :: map (λ e, Emit (newLog e)) es
                 ++ [Emit (fileEnd n)]) =
  entries_of tr ++ es.
Proof.
  rewrite entries_of_app. f_equal.
  change (entries_of (IoRead pos fed :: ?l)) with (entries_of l).
  rewrite entries_of_app, entries_of_newLog. simpl. by rewrite app_nil_r.
Qed.

(** The file is truncated and rewritten while the thread is between two
    passes: the next pass reads the new file from its beginning. *)
Lemma pass_after_rewrite c t content :
  thread c = Some t → pc t = L118_while_paused →
  _stop (self c) = false → _paused (self c) = false →
  size_of content < offset t →
  let r := exec (World (Rewrite (_logFilePath (self c)) content)
                   :: ticks_with ([[]; []; []; []] ++ [[]; []; []; []; []])) c in
  reads_of r.2 = [(0, content)] ∧
  fileEnds_of r.2 = [to_int (size_of content)] ∧
  offset <$> thread r.1 = Some (size_of content) ∧
  _fileSize (self r.1) = size_of content.
Proof.
  intros Ht Hpc Hs Hp Hlt. cbv zeta.
  rewrite exec_cons. cbn [step fst snd].
  set (c0 := world _ c).
  assert (Hc0 : content_of c0 = content).
  { unfold c0, content_of. simpl. by rewrite lookup_insert_eq. }
  assert (St0 : steady c0).
  { split; [done|]. unfold c0. simpl. rewrite lookup_insert_eq. by eexists. }
  rewrite ticks_with_app, exec_app. cbn [fst snd].
  destruct (idle_to_tellg c0 t [] [] [] [] Ht Hpc St0 Hp) as (T1 & S1 & Tr1 & C1);
    try by constructor.
  set (r1 := exec (ticks_with [[]; []; []; []]) c0) in *.
  simpl in C1. rewrite app_nil_r, Hc0 in C1.
  destruct (pass_from_tellg r1.1 _ [] [] [] [] [] T1 eq_refl) as (T2 & F2 & Tr2);
    try by constructor.
  cbn [parser offset] in T2, Tr2.
  set (r2 := exec (ticks_with [[]; []; []; []; []]) r1.1) in *.
  assert (Hpos : seek_pos (offset t) (size_of content) = 0).
  { unfold seek_pos. replace (offset t >? size_of content) with true by lia.
    by rewrite orb_true_r. }
  rewrite C1, Hpos in T2, Tr2. rewrite C1 in F2.
  assert (Hfed : content_of (exec (ticks_with [[]; []; []]) r1.1).1 = content).
  { assert (St1 : steady r1.1).
    { by destruct (steady_ticks [[]; []; []; []] c0 St0);
        [repeat constructor|]. }
    destruct (steady_ticks [[]; []; []] r1.1 St1) as (_ & _ & _ & _ & C3);
      [by repeat constructor|].
    rewrite C3, C1. simpl. by rewrite app_nil_r. }
  rewrite Hfed in T2, Tr2. change (drop (Z.to_nat 0) content) with content in *.
  rewrite app_nil_l, reads_of_app, fileEnds_of_app.
  rewrite <- (reads_of_thread_trace r1.2), <- (fileEnds_of_thread_trace r1.2), Tr1.
  rewrite <- (reads_of_thread_trace r2.2), <- (fileEnds_of_thread_trace r2.2), Tr2.
  rewrite reads_of_pass, reads_of_setFileSize.
  rewrite T2, F2. repeat split.
  rewrite fileEnds_of_app. simpl. rewrite fileEnds_of_app, fileEnds_of_newLog.
  unfold setFileSize. by destruct (_ =? _).
Qed.

(** C2.  Over any run of a freshly constructed reader: once the stream
    has been positioned in a pass, and from then until the size is stored
    in the next pass, the offset kept lies between 0 and the stored file
    size (it is the stored file size); before the first pass of a thread
    it is the initial -1.  A pass that finds the file shorter than the
    offset kept from the previous pass reads the file from position 0 and
    keeps the new size as offset, whatever the environment does during
    the pass.  So, when the file is truncated and rewritten between two
    passes, the next pass reads the new file from its beginning and
    announces its size. *)
Theorem offset_within_file :
  (∀ m sched t,
     let c := (exec sched (fresh m)).1 in
     thread c = Some t →
     (past_seek (pc t) = true → 0 ≤ offset t ≤ _fileSize (self c)) ∧
     ((∀ s, pc t ≠ L106_seekg s) →
      offset t = -1 ∨ 0 ≤ offset t ≤ _fileSize (self c))) ∧
  (∀ c t e1 e2 e3 e4 e5,
     thread c = Some t → pc t = L102_tellg →
     env_only e1 → env_only e2 → env_only e3 → env_only e4 → env_only e5 →
     size_of (content_of c) < offset t →
     let r := exec (ticks_with [e1; e2; e3; e4; e5]) c in
     reads_of r.2 = [(0, content_of (exec (ticks_with [e1; e2; e3]) c).1)] ∧
     offset <$> thread r.1 = Some (size_of (content_of c)) ∧
     0 ≤ size_of (content_of c) ≤ _fileSize (self r.1)) ∧
  (∀ c t content,
     thread c = Some t → pc t = L118_while_paused →
     _stop (self c) = false → _paused (self c) = false →
     size_of content < offset t →
     let r := exec (World (Rewrite (_logFilePath (self c)) content)
                      :: ticks_with ([[]; []; []; []] ++ [[]; []; []; []; []])) c in
     reads_of r.2 = [(0, content)] ∧
     fileEnds_of r.2 = [to_int (size_of content)] ∧
     offset <$> thread r.1 = Some (size_of content) ∧
     _fileSize (self r.1) = size_of content).
Proof.
  split; [|split].
  - intros m sched t c Ht.
    assert (Hok : offset_ok c) by by apply exec_offset_ok.
    unfold offset_ok in Hok. rewrite Ht in Hok.
    split.
    + intros Hp. destruct (pc t); try done; lia.
    + intros Hn. destruct (pc t) as [| | |s|s| | | | |];
        try lia. by destruct (Hn s).
  - intros c t e1 e2 e3 e4 e5 Ht Hpc He1 He2 He3 He4 He5 Hlt r.
    destruct (pass_from_tellg c t e1 e2 e3 e4 e5) as (T & F & _); try done.
    fold r in T, F. subst r.
    rewrite (pass_reads c t) by done. rewrite T, F.
    unfold seek_pos.
    replace (offset t >? size_of (content_of c)) with true by lia.
    rewrite orb_true_r. simpl.
    pose proof (size_of_nonneg (content_of c)). repeat split; lia.
  - apply pass_after_rewrite.
Qed.

Lemma entries_of_call m c : entries_of (call m c).2 = [].
Proof.
  unfold call, stop, QThread_start.
  destruct (caller c), m; simpl; try done;
    repeat match goal with
    | |- context [if ?b then _ else _] => destruct b; try done
    | |- context [resume ?k _] => destruct k; try done
    end.
Qed.

Lemma content_of_tick c : steady c → content_of (tick c).1 = content_of c.
Proof.
  intros Hst. destruct (steady_tick c Hst) as (F & _ & _ & _ & L).
  unfold content_of. by rewrite F, L.
Qed.

Lemma size_of_full (l : list byte) : take (Z.to_nat (size_of l)) l = l.
Proof. unfold size_of. rewrite Nat2Z.id. apply firstn_all. Qed.

Lemma tailed_tick `{!ChunkParser P} c D :
  tailed c D → tailed (tick c).1 (D ++ entries_of (tick c).2).
Proof.
  intros [Hst Hinv]. split.
  { destruct (steady_tick c Hst) as (F & _ & S & _ & L).
    destruct Hst as [H1 H2]. split; [by rewrite S|]. by rewrite F, L. }
  pose proof (content_of_tick c Hst) as HC.
  unfold parsed_to in *. rewrite HC. clear HC.
  destruct Hst as [Hs [x Hf]].
  unfold unparsed in *.
  by_label c; rewrite ?Hs, ?Hf; cbn [fst snd thread goto with_thread pc offset
    parser entries_of flat_map]; rewrite ?app_nil_r.
  - (* line 92 *) done.
  - (* line 94 *) done.
  - (* line 103 *) done.
  - (* line 104 *)
    unfold setFileSize. destruct (_ =? _); simpl; by rewrite app_nil_r.
  - (* lines 106-110 *)
    destruct Hinv as [-> [[Ho Hu]|[Hr Hp]]].
    + split; [done|]. left. split; [|done]. unfold seek_pos. by rewrite Ho.
    + split; [done|]. right. unfold seek_pos.
      replace (offset t <? 0) with false by lia.
      by replace (offset t >? size_of (content_of c)) with false by lia.
  - (* line 112 *)
    change (flat_map _ (map _ ?es))
      with (entries_of (map (λ e, Emit (newLog e)) es)).
    rewrite entries_of_newLog.
    pose proof (size_of_nonneg (content_of c)) as Hn.
    destruct Hinv as [Ho [[-> [Hu ->]]|[Hr Hp]]]; rewrite Ho, size_of_full.
    + split; [lia|]. simpl. rewrite Hu. by destruct (parseStream _ _).
    + split; [lia|].
      rewrite <- (take_drop (Z.to_nat pos) (content_of c)) at 1.
      rewrite parseStream_app, Hp. simpl.
      by destruct (parseStream (parser t) _).
  - (* line 114 *) done.
  - (* line 118 *) destruct (_ && _); simpl; by rewrite app_nil_r.
  - (* line 120 *) done.
  - (* line 123 *) by right.
  - by rewrite Ht.
Qed.

Lemma tailed_call m c D :
  tailed c D → tailing_action c (Invoke m) = true →
  tailed (call m c).1 (D ++ entries_of (call m c).2).
Proof.
  intros [Hst Hinv] Hm. rewrite entries_of_call, app_nil_r.
  destruct m as [|?|pause|]; try done.
  - (* start *)
    unfold call, QThread_start, isRunning.
    destruct (caller c); [|by split..].
    destruct (thread c) as [t|] eqn:Ht; split; try done; simpl; rewrite ?Ht; try done.
    left. by subst D.
  - (* setPause *)
    unfold call.
    destruct (caller c); try destruct (Bool.eqb pause _); split; try done;
      exact Hinv.
Qed.

Lemma parsed_to_append c t n D p b :
  parsed_to c t n D → parsed_to (world (Append p b) c) t n D.
Proof.
  unfold parsed_to. rewrite content_of_append, size_of_app.
  intros [Hn Hp]. split.
  - pose proof (size_of_nonneg
      (if String.eqb p (_logFilePath (self c)) then b else [])). lia.
  - rewrite take_app_le; [done|]. unfold size_of in Hn. lia.
Qed.

Lemma steady_append c p b : steady c → steady (world (Append p b) c).
Proof.
  intros [H1 H2]. split; [done|]. simpl.
  rewrite lookup_insert. case_decide; [done|done].
Qed.

Lemma tailed_append c D p b :
  tailed c D → tailing_action c (World (Append p b)) = true →
  tailed (world (Append p b) c) D.
Proof.
  intros [Hst Hinv] Ha. split; [by apply steady_append|].
  simpl in Ha. unfold size_pending in Ha.
  change (thread (world (Append p b) c)) with (thread c).
  destruct (thread c) as [t|]; [|done].
  destruct (pc t); simpl in Ha;
    try (destruct Hinv as [?|?]; [by left | right; by apply parsed_to_append]);
    try (by apply parsed_to_append).
  all: assert (Hc : content_of (world (Append p b) c) = content_of c)
    by (rewrite content_of_append;
        destruct (String.eqb p _); [done | by rewrite app_nil_r]);
    unfold parsed_to in *; by rewrite Hc.
Qed.

Lemma tailed_exec `{!ChunkParser P} sched c D :
  tailed c D → tailing sched c = true →
  tailed (exec sched c).1 (D ++ entries_of (exec sched c).2).
Proof.
  revert c D. induction sched as [|a sched IH]; intros c D Hinv Hs.
  { simpl. by rewrite app_nil_r. }
  simpl in Hs. apply andb_prop in Hs as [Ha Hs].
  rewrite exec_cons. cbn [fst snd]. rewrite entries_of_app, app_assoc.
  apply IH; [|done].
  destruct a as [|m|op].
  - by apply tailed_tick.
  - by apply tailed_call.
  - destruct op as [p b| |]; try done. simpl. rewrite app_nil_r.
    by apply tailed_append.
Qed.

(** C1 (amended).  For a parser that may be fed its input in pieces,
    and a reader that is not yet running on a file that is there: over
    any run in which the thread runs, the reader is started, paused and
    resumed, and other processes append to the file, though not between
    the size determination and the read of a pass, once the thread has
    handed the whole file to the parser the entries delivered by new-entry
    signals, in emission order, are the entries the parser calls back when
    fed the whole file at once. *)
Theorem tailing_is_one_shot_parse `{!ChunkParser P} c sched :
  thread c = None → steady c →
  tailing sched c = true →
  caught_up (exec sched c).1 →
  entries_of (exec sched c).2 =
  (parseStream parser_new (content_of (exec sched c).1)).2.
Proof.
  intros Ht Hst Hs (t & Ht' & Ho & Hpc).
  assert (Hinit : tailed c []) by (split; [done | by rewrite Ht]).
  destruct (tailed_exec sched c [] Hinit Hs) as [_ Hinv].
  rewrite Ht' in Hinv. simpl in Hinv.
  set (c' := (exec sched c).1) in *.
  pose proof (size_of_nonneg (content_of c')) as Hn.
  assert (Hp : parsed_to c' t (offset t) (entries_of (exec sched c).2)).
  { destruct (pc t) as [| | |s|s|pos| | | |]; try done;
      try (destruct Hinv as [[? _]|?]; [lia|done]);
      try (destruct Hinv as [_ [[? _]|?]]; [lia|done]).
    by destruct (Hpc pos). }
  destruct Hp as [_ Hp]. rewrite Ho, size_of_full in Hp. by rewrite Hp.
Qed.

(** ** Stopping *)

Lemma path_changes_app tr1 tr2 :
  path_changes (tr1 ++ tr2) = path_changes tr1 ++ path_changes tr2.
Proof. apply flat_map_app. Qed.

Lemma path_changes_newLog (es : list Entry) :
  path_changes (map (λ e, Emit (newLog e)) es) = [].
Proof. by induction es. Qed.

Lemma finish_stopping k old c :
  stopping k old c →
  stopped_as k old (finish c).1 ∧ path_changes (finish c).2 = announced k ∧
  thread_trace (finish c).2 = [].
Proof.
  intros (_ & Hs & Hc & Hl). unfold finish, stopped_as.
  simpl. rewrite Hc. by destruct k.
Qed.

(** One statement of the thread while [stop()] waits: [run] returns, or
    the thread is nearer to returning. *)
Lemma stopping_tick k old c t :
  stopping k old c → thread c = Some t →
  (stopped_as k old (tick c).1 ∧ path_changes (tick c).2 = announced k) ∨
  (stopping k old (tick c).1 ∧ path_changes (tick c).2 = [] ∧
   ∃ t', thread (tick c).1 = Some t' ∧
         (exit_bound (pc t') < exit_bound (pc t))%nat).
Proof.
  intros Hst Ht. pose proof Hst as (_ & Hs & Hc & Hl).
  destruct (pc t) eqn:Hpc; at_label; rewrite ?Hs.
  - left. by destruct (finish_stopping k old c Hst) as (? & ? & _).
  - destruct (fs c !! _) eqn:Hf.
    + right. split; [by repeat split|]. split; [done|]. eexists. split; [done|].
      simpl. lia.
    + left.
      destruct (finish_stopping k old (with_self (set_stop true (self c)) c))
        as (H1 & H2 & _).
      { split; [simpl; rewrite Ht; by eexists | done]. }
      split; [exact H1|]. simpl. exact H2.
  - right. split; [by repeat split|]. split; [done|]. eexists. split; [done|].
    simpl. lia.
  - right. split; [|split].
    + unfold setFileSize. destruct (_ =? _); by repeat split.
    + unfold setFileSize. by destruct (_ =? _).
    + eexists. split; [done|]. simpl. lia.
  - right. split; [by repeat split|]. split; [done|]. eexists. split; [done|].
    simpl. lia.
  - right. split; [by repeat split|]. split.
    + simpl. apply path_changes_newLog.
    + eexists. split; [done|]. simpl. lia.
  - right. split; [by repeat split|]. split; [done|]. eexists. split; [done|].
    simpl. lia.
  - right. rewrite andb_false_r.
    split; [by repeat split|]. split; [done|]. eexists. split; [done|].
    simpl. lia.
  - right. split; [by repeat split|]. split; [done|]. eexists. split; [done|].
    simpl. lia.
  - right. split; [by repeat split|]. split; [done|]. eexists. split; [done|].
    simpl. lia.
Qed.

Lemma stopping_env k old c a :
  stopping k old c → bystander a = true → a ≠ Tick →
  stopping k old (step a c).1 ∧ path_changes (step a c).2 = [] ∧
  thread (step a c).1 = thread c.
Proof.
  intros (Ht & Hs & Hc & Hl) Hb Ha.
  destruct a as [|[]|op]; try done; simpl.
  - unfold call. rewrite Hc. by destruct (Bool.eqb _ _).
  - rewrite world_thread. split; [|done].
    unfold stopping. by rewrite world_thread, world_self, world_caller.
Qed.

Lemma stopped_step k old c a :
  stopped_as k old c → bystander a = true →
  stopped_as k old (step a c).1 ∧ path_changes (step a c).2 = [] ∧
  thread_trace (step a c).2 = [].
Proof.
  intros (Ht & Hs & Hk) Hb.
  destruct a as [|[]|op]; try done; simpl.
  - unfold tick. by rewrite Ht.
  - unfold call, stopped_as. destruct k; destruct Hk as [Hk Hl]; rewrite Hk;
      try destruct (Bool.eqb _ _); simpl; by rewrite ?Hk.
  - split; [|done].
    unfold stopped_as. by rewrite world_thread, world_self, world_caller.
Qed.

Lemma stopped_exec k old c sched :
  stopped_as k old c → forallb bystander sched = true →
  stopped_as k old (exec sched c).1 ∧ path_changes (exec sched c).2 = [] ∧
  thread_trace (exec sched c).2 = [].
Proof.
  revert c. induction sched as [|a sched IH]; intros c Hst Hb; [done|].
  simpl in Hb. apply andb_prop in Hb as [Ha Hb].
  destruct (stopped_step k old c a Hst Ha) as (H1 & H2 & H3).
  destruct (IH _ H1 Hb) as (J1 & J2 & J3).
  rewrite exec_cons. cbn [fst snd].
  by rewrite path_changes_app, thread_trace_app, H2, H3, J2, J3.
Qed.

(** While [stop()] waits nothing is announced and the path stays; when
    [run] returns the flag is cleared and the pending method is carried
    out, once. *)
Lemma stopping_exec k old c sched :
  stopping k old c → forallb bystander sched = true →
  (stopping k old (exec sched c).1 ∧ path_changes (exec sched c).2 = []) ∨
  (stopped_as k old (exec sched c).1 ∧
   path_changes (exec sched c).2 = announced k).
Proof.
  revert c. induction sched as [|a sched IH]; intros c Hst Hb; [by left|].
  simpl in Hb. apply andb_prop in Hb as [Ha Hb].
  rewrite exec_cons. cbn [fst snd]. rewrite path_changes_app.
  destruct a as [|m|op].
  - pose proof Hst as ([t Ht] & _).
    destruct (stopping_tick k old c t Hst Ht) as [[H1 H2]|(H1 & H2 & _)].
    + right. destruct (stopped_exec k old _ sched H1 Hb) as (J1 & J2 & _).
      simpl. by rewrite H2, J2, app_nil_r.
    + simpl. rewrite H2. by apply IH.
  - destruct (stopping_env k old c (Invoke m) Hst Ha) as (H1 & H2 & _); [done|].
    rewrite H2. by apply IH.
  - destruct (stopping_env k old c (World op) Hst Ha) as (H1 & H2 & _); [done|].
    rewrite H2. by apply IH.
Qed.

(** [run] returns within [exit_bound] statements of the thread. *)
Lemma exit_within k old c t sched :
  stopping k old c → thread c = Some t →
  forallb bystander sched = true →
  (exit_bound (pc t) ≤ count_ticks sched)%nat →
  thread (exec sched c).1 = None.
Proof.
  revert c t. induction sched as [|a sched IH]; intros c t Hst Ht Hb Hn.
  { unfold count_ticks in Hn. simpl in Hn. destruct (pc t); simpl in Hn; lia. }
  simpl in Hb. apply andb_prop in Hb as [Ha Hb].
  rewrite exec_cons. cbn [fst].
  destruct a as [|m|op].
  - destruct (stopping_tick k old c t Hst Ht) as [[H1 H2]|(H1 & H2 & t' & Ht' & Hlt)].
    + by destruct (stopped_exec k old _ sched H1 Hb) as ((J1 & _) & _).
    + apply (IH _ t'); try done.
      unfold count_ticks in *. simpl in Hn. lia.
  - destruct (stopping_env k old c (Invoke m) Hst Ha) as (H1 & _ & H3); [done|].
    apply (IH _ t); try done. by rewrite H3.
  - destruct (stopping_env k old c (World op) Hst Ha) as (H1 & _ & H3); [done|].
    apply (IH _ t); try done. by rewrite H3.
Qed.

Lemma exit_bound_le l : (exit_bound l ≤ 9)%nat.
Proof. destruct l; simpl; lia. Qed.

Lemma onlooker_bystander e :
  forallb onlooker e = true → forallb bystander e = true ∧ env_only e.
Proof.
  induction e as [|a e IH]; [by split; [|constructor]|].
  simpl. intros [Ha He]%andb_prop. destruct (IH He) as [H1 H2].
  split; [|constructor; [by destruct a|done]].
  rewrite H1, andb_true_r. by destruct a as [|[]|].
Qed.

Lemma stopping_onlookers k old c e :
  stopping k old c → forallb onlooker e = true →
  stopping k old (exec e c).1 ∧ thread (exec e c).1 = thread c ∧
  thread_trace (exec e c).2 = [].
Proof.
  intros Hst He. destruct (onlooker_bystander e He) as [Hb Hn].
  pose proof Hst as ([t Ht] & _).
  destruct (env_running e c t Hn Ht) as (T & _ & _ & Tr).
  split; [|by rewrite T, Ht].
  destruct (stopping_exec k old c e Hst Hb) as [[H _]|[[H _] _]]; [done|].
  by rewrite T in H.
Qed.

(** C4 (amended).  [setLogFilePath] with the current path changes
    nothing and emits nothing.  With another path, on a reader whose
    thread is not running, it stores the path, leaves the stop flag clear
    and emits one path-changed signal.  On a reader whose thread is
    running it sets the stop flag and waits: as long as the thread runs
    the path is the old one and no path-changed signal is emitted; the
    thread has returned after at most nine of its statements; when it has,
    the stop flag is clear again, the path is the new one and exactly one
    path-changed signal has been emitted.  In both cases no thread is
    running afterwards and none starts by itself: the thread does nothing
    until [start] is called. *)
Theorem setLogFilePath_stops_and_renames :
  (∀ c, call (setLogFilePath (_logFilePath (self c))) c = (c, [])) ∧
  (∀ c p,
     caller c = Idle → p ≠ _logFilePath (self c) → isRunning c = false →
     let r := call (setLogFilePath p) c in
     _logFilePath (self r.1) = p ∧ _stop (self r.1) = false ∧
     caller r.1 = Idle ∧ isRunning r.1 = false ∧
     r.2 = [Emit (logFilePathChanged p)] ∧
     ∀ sched, forallb bystander sched = true →
       isRunning (exec sched r.1).1 = false ∧
       thread_trace (exec sched r.1).2 = []) ∧
  (∀ c p sched,
     caller c = Idle → p ≠ _logFilePath (self c) → isRunning c = true →
     forallb bystander sched = true →
     let r0 := call (setLogFilePath p) c in
     let r := exec sched r0.1 in
     r0.2 = [] ∧ _stop (self r0.1) = true ∧ thread r0.1 = thread c ∧
     (isRunning r.1 = true →
        caller r.1 = InStop (in_setLogFilePath p) ∧
        _logFilePath (self r.1) = _logFilePath (self c) ∧
        path_changes r.2 = []) ∧
     (isRunning r.1 = false →
        caller r.1 = Idle ∧ _logFilePath (self r.1) = p ∧
        _stop (self r.1) = false ∧ path_changes r.2 = [p] ∧
        ∀ sched', forallb bystander sched' = true →
          isRunning (exec sched' r.1).1 = false ∧
          thread_trace (exec sched' r.1).2 = []) ∧
     ((9 ≤ count_ticks sched)%nat → isRunning r.1 = false)).
Proof.
  split; [|split].
  - intros c. unfold call. rewrite String.eqb_refl. by destruct (caller c).
  - intros c p Hc Hp Hr r. subst r. unfold call. rewrite Hc.
    destruct (String.eqb_spec p (_logFilePath (self c))) as [|_]; [done|].
    unfold stop. simpl. unfold isRunning in *. simpl.
    destruct (thread c) eqn:Ht; [done|]. simpl. rewrite Ht.
    do 5 (split; [done|]). intros sched Hb.
    destruct (stopped_exec (in_setLogFilePath p) (_logFilePath (self c))
      (with_caller Idle (with_self (set_logFilePath p
         (set_stop false (set_stop true (self c))))
         (with_self (set_stop false (set_stop true (self c)))
            (with_self (set_stop true (self c)) c)))) sched)
      as ((T & _) & _ & Tr); [by repeat split|done|].
    by rewrite T.
  - intros c p sched Hc Hp Hr Hb r0 r.
    assert (E : r0 = (with_caller (InStop (in_setLogFilePath p))
                        (with_self (set_stop true (self c)) c), [])).
    { subst r0. unfold call. rewrite Hc.
      destruct (String.eqb_spec p (_logFilePath (self c))) as [|_]; [done|].
      unfold stop. unfold isRunning in *. simpl. by destruct (thread c). }
    assert (Hst : stopping (in_setLogFilePath p) (_logFilePath (self c)) r0.1).
    { rewrite E. repeat split. simpl. unfold isRunning in Hr.
      by destruct (thread c). }
    split; [by rewrite E|]. split; [by rewrite E|]. split; [by rewrite E|].
    unfold isRunning.
    destruct (stopping_exec _ _ _ sched Hst Hb)
      as [[(T & S & K & L) Pc]|[(T & S & K & L) Pc]]; fold r in T, S, K, L, Pc.
    + destruct T as [t' T]. rewrite T. split; [done|]. split; [done|].
      intros Hn. pose proof Hst as ([t Ht] & _).
      pose proof (exit_within _ _ _ t sched Hst Ht Hb) as Hx.
      fold r in Hx. rewrite T in Hx.
      pose proof (exit_bound_le (pc t)). by discriminate Hx; [lia].
    + rewrite T. split; [done|]. split; [|done]. intros _.
      do 4 (split; [done|]). intros sched' Hb'.
      destruct (stopped_exec (in_setLogFilePath p) (_logFilePath (self c))
        r.1 sched') as ((T' & _) & _ & Tr); [by repeat split|done|].
      by rewrite T'.
Qed.

Lemma stopping_goto k old c t l :
  stopping k old c → stopping k old (goto l t c).
Proof. intros (_ & H). split; [by eexists | done]. Qed.

(** From the pause wait to the return of [run], with the stop flag
    set: the wait returns, the pause loop is left, the thread sleeps, the
    loop ends. *)
Lemma stop_while_waiting k old c t e1 e2 e3 e4 :
  stopping k old c → thread c = Some t → pc t = L120_wait →
  forallb onlooker e1 = true → forallb onlooker e2 = true →
  forallb onlooker e3 = true → forallb onlooker e4 = true →
  let r := exec (ticks_with [e1; e2; e3; e4]) c in
  thread_trace r.2 = [CondWait 1000; MSleep 1000] ∧
  thread r.1 = None ∧ _stop (self r.1) = false.
Proof.
  intros Hst Ht Hpc O1 O2 O3 O4. cbv zeta.
  destruct (onlooker_bystander e1 O1) as [_ N1].
  destruct (onlooker_bystander e2 O2) as [_ N2].
  destruct (onlooker_bystander e3 O3) as [_ N3].
  destruct (onlooker_bystander e4 O4) as [B4 N4].
  rewrite !ticks_with_trace, !ticks_with_config by done.
  change (ticks_with []) with (@nil Action). rewrite exec_nil. cbn [fst snd].
  (* line 120 *)
  rewrite (tick_wait c t Ht Hpc). cbn [fst snd].
  set (c1 := goto L118_while_paused t c).
  destruct (stopping_onlookers k old c1 e1) as (S1 & T1 & _);
    [by apply stopping_goto|done|].
  (* line 118 *)
  rewrite (tick_while_paused _ _ T1 eq_refl).
  replace (_stop (self (exec e1 c1).1)) with true by by destruct S1 as (_ & -> & _).
  rewrite andb_false_r. cbn [fst snd].
  set (c2 := goto L123_msleep _ _).
  destruct (stopping_onlookers k old c2 e2) as (S2 & T2 & _);
    [by apply stopping_goto|done|].
  (* line 123 *)
  rewrite (tick_msleep _ _ T2 eq_refl). cbn [fst snd].
  set (c3 := goto L92_while _ _).
  destruct (stopping_onlookers k old c3 e3) as (S3 & T3 & _);
    [by apply stopping_goto|done|].
  (* line 92 *)
  rewrite (tick_while_stop _ _ T3 eq_refl) by by destruct S3 as (_ & -> & _).
  destruct (finish_stopping k old _ S3) as (F1 & _ & F3).
  rewrite F3.
  destruct (stopped_exec k old _ e4 F1 B4) as ((T4 & S4 & _) & _).
  done.
Qed.

(** C7 (amended).  Once [stop()] has set the stop flag and waits for
    the thread, [run] returns after at most [exit_bound] further
    statements of the thread, at most nine, whatever happens to the files
    and the pause flag meanwhile; when it has returned the stop flag is
    clear again.  The fixed sleep is not skipped: a thread that is in the
    pause wait when the stop is requested comes back from the wait, leaves
    the pause loop, sleeps its 1000 ms and only then ends the loop. *)
Theorem stop_ends_loop :
  (∀ k old c t sched,
     stopping k old c → thread c = Some t →
     forallb bystander sched = true →
     (exit_bound (pc t) ≤ count_ticks sched)%nat →
     thread (exec sched c).1 = None ∧ _stop (self (exec sched c).1) = false) ∧
  (∀ l, (exit_bound l ≤ 9)%nat) ∧
  (∀ k old c t e1 e2 e3 e4,
     stopping k old c → thread c = Some t → pc t = L120_wait →
     forallb onlooker e1 = true → forallb onlooker e2 = true →
     forallb onlooker e3 = true → forallb onlooker e4 = true →
     let r := exec (ticks_with [e1; e2; e3; e4]) c in
     thread_trace r.2 = [CondWait 1000; MSleep 1000] ∧
     thread r.1 = None ∧ _stop (self r.1) = false).
Proof.
  split; [|split].
  - intros k old c t sched Hst Ht Hb Hn.
    pose proof (exit_within k old c t sched Hst Ht Hb Hn) as Hx.
    split; [done|].
    destruct (stopping_exec k old c sched Hst Hb)
      as [[([t' T] & _) _]|[(_ & S & _) _]]; [congruence|done].
  - apply exit_bound_le.
  - intros k old c t e1 e2 e3 e4 Hst Ht Hpc O1 O2 O3 O4.
    by apply (stop_while_waiting k old c t).
Qed.

(** ** Pausing *)

Lemma blocked_step t0 c a :
  blocked t0 c → keeps_paused a = true →
  blocked t0 (step a c).1 ∧ Forall (λ e, e = CondWait 1000) (step a c).2.
Proof.
  intros (Hp & Hs & t & Ht & Hpc & Hps & Ho) Ha.
  destruct a as [|[| |[]|]|op]; try done; simpl.
  - destruct Hpc as [Hpc|Hpc]; at_label; rewrite ?Hp, ?Hs; simpl.
    + split; [|done]. repeat split; try done. eexists. split; [done|]. eauto.
    + split; [|by repeat constructor].
      repeat split; try done. eexists. split; [done|]. eauto.
  - unfold call, QThread_start, isRunning. rewrite Ht.
    split; [|by destruct (caller c)].
    destruct (caller c); repeat split; eauto.
  - unfold call. rewrite Hp. simpl.
    split; [|by destruct (caller c)].
    destruct (caller c); repeat split; eauto.
  - split; [|done]. unfold blocked.
    rewrite world_self, world_thread. repeat split; eauto.
Qed.

Lemma blocked_exec t0 c sched :
  blocked t0 c → forallb keeps_paused sched = true →
  blocked t0 (exec sched c).1 ∧ Forall (λ e, e = CondWait 1000) (exec sched c).2.
Proof.
  revert c. induction sched as [|a sched IH]; intros c Hb Hs; [done|].
  simpl in Hs. apply andb_prop in Hs as [Ha Hs].
  destruct (blocked_step t0 c a Hb Ha) as [H1 H2].
  destruct (IH _ H1 Hs) as [J1 J2].
  rewrite exec_cons. cbn [fst snd]. split; [done|]. by apply Forall_app.
Qed.

Lemma entries_of_thread_trace tr : entries_of (thread_trace tr) = entries_of tr.
Proof.
  induction tr as [|e tr IH]; [done|].
  rewrite thread_trace_cons.
  destruct e as [[]| | | |]; simpl; by rewrite ?IH.
Qed.

Lemma entries_of_setFileSize fileSize o :
  entries_of (setFileSize fileSize o).2 = [].
Proof. unfold setFileSize. by destruct (_ =? _). Qed.

(** Resuming a thread that waits in the pause loop: the next pass
    reads the file from the offset kept. *)
Lemma resume_reads c t seen during e1 e2 e3 e4 e5 e6 e7 e8 e9 e10 :
  thread c = Some t → pc t = L120_wait →
  _paused (self c) = true → steady c → caller c ≠ Destroyed →
  content_of c = seen ++ during → offset t = size_of seen →
  Forall appends_only [e1; e2; e3; e4; e5; e6; e7; e8; e9; e10] →
  let path := _logFilePath (self c) in
  let fed := during ++ appended path
               (e1 ++ e2 ++ e3 ++ e4 ++ e5 ++ e6 ++ e7 ++ e8) in
  let r := exec (Invoke (setPause false)
                   :: ticks_with [e1; e2; e3; e4; e5; e6; e7; e8; e9; e10]) c in
  reads_of r.2 = [(size_of seen, fed)] ∧
  entries_of r.2 = (parseStream (parser t) fed).2.
Proof.
  intros Ht Hpc Hp Hst Hk Hc Ho He path fed r. subst r fed.
  repeat match goal with
  | H : Forall _ (_ :: _) |- _ =>
      let A := fresh "A" in inversion H as [|? ? A ?]; subst; clear H
  | H : Forall _ [] |- _ => clear H
  end.
  rewrite exec_cons. cbn [step].
  assert (E : call (setPause false) c =
              (with_self (set_paused false (self c)) c,
               [Emit (pausedChanged false)])).
  { unfold call. rewrite Hp. by destruct (caller c). }
  rewrite E. cbn [fst snd]. clear E.
  set (c0 := with_self _ c).
  assert (St0 : steady c0) by done.
  change [e1; e2; e3; e4; e5; e6; e7; e8; e9; e10]
    with ([e1] ++ [e2; e3; e4; e5] ++ [e6; e7; e8; e9; e10]).
  rewrite !ticks_with_app, !exec_app. cbn [fst snd].
  rewrite !reads_of_app, !entries_of_app.
  (* the wait returns *)
  assert (E1 : exec (ticks_with [e1]) c0 =
               ((exec e1 (goto L118_while_paused t c0)).1,
                CondWait 1000 :: (exec e1 (goto L118_while_paused t c0)).2)).
  { rewrite ticks_with_cons. change (ticks_with []) with (@nil Action).
    rewrite exec_nil, (tick_wait c0 t Ht Hpc). cbn [fst snd].
    by rewrite app_nil_r. }
  rewrite E1. cbn [fst snd]. clear E1.
  destruct (appends_exec e1 (goto L118_while_paused t c0) A)
    as (T1 & S1 & _ & O1 & C1 & St1).
  rewrite O1. set (c1 := (exec e1 _).1) in *.
  change (content_of (goto L118_while_paused t c0)) with (content_of c) in C1.
  change (_logFilePath (self (goto L118_while_paused t c0))) with path in C1.
  (* up to the next size determination *)
  destruct (idle_to_tellg c1 _ e2 e3 e4 e5 T1 eq_refl) as (T2 & S2 & Tr2 & C2);
    try done; [by apply St1 | by rewrite S1|].
  set (r2 := exec (ticks_with [e2; e3; e4; e5]) c1) in *.
  assert (St2 : steady r2.1).
  { by destruct (steady_ticks [e2; e3; e4; e5] c1 (St1 St0));
      [repeat constructor|]. }
  rewrite <- (reads_of_thread_trace r2.2), <- (entries_of_thread_trace r2.2), Tr2.
  (* the pass *)
  destruct (pass_from_tellg r2.1 _ e6 e7 e8 e9 e10 T2 eq_refl) as (_ & _ & Tr3);
    auto using appends_only_env.
  set (r3 := exec (ticks_with [e6; e7; e8; e9; e10]) r2.1) in *.
  rewrite <- (reads_of_thread_trace r3.2), <- (entries_of_thread_trace r3.2), Tr3.
  destruct (steady_ticks [e6; e7; e8] r2.1 St2) as (_ & _ & _ & _ & C3);
    [by repeat constructor|].
  rewrite C3, C2, C1, S2, S1, Hc. cbn [offset parser concat].
  change (_logFilePath (self (goto L118_while_paused t c0))) with path.
  rewrite !app_nil_r, !appended_app, <- !app_assoc, Ho.
  rewrite seek_pos_grown, drop_size_of_app.
  rewrite reads_of_pass, entries_of_pass.
  by rewrite reads_of_setFileSize, entries_of_setFileSize.
Qed.

Lemma paused_step c a :
  _paused (self c) = true → caller c = Idle → keeps_paused a = true →
  _paused (self (step a c).1) = true ∧ caller (step a c).1 = Idle ∧
  (length (reads_of (step a c).2) + reads_left (step a c).1 ≤ reads_left c)%nat.
Proof.
  intros Hp Hk Ha. unfold reads_left.
  destruct a as [|[| |[]|]|op]; try done; simpl.
  - by_label c; unfold finish; rewrite ?Hk, ?Hp; cases_of_tick; simpl;
      rewrite ?Ht, ?Hpc, ?reads_of_newLog;
      repeat match goal with H : _ = _ |- _ => rewrite H end;
      simpl; try done; try (repeat split; try done; lia);
      try (simpl in *; rewrite ?Hk in *; simpl in *; congruence).
    simpl in *. destruct (_stop (self c)); done.
  - unfold call, QThread_start, isRunning. rewrite Hk.
    destruct (thread c) eqn:Ht; simpl; rewrite ?Ht; [done|].
    by destruct (_stop (self c)).
  - unfold call. rewrite Hk, Hp. done.
  - by rewrite world_self, world_caller, world_thread.
Qed.

Lemma paused_exec c sched :
  _paused (self c) = true → caller c = Idle →
  forallb keeps_paused sched = true →
  (length (reads_of (exec sched c).2) + reads_left (exec sched c).1
   ≤ reads_left c)%nat.
Proof.
  revert c. induction sched as [|a sched IH]; intros c Hp Hk Hs; [simpl; lia|].
  simpl in Hs. apply andb_prop in Hs as [Ha Hs].
  destruct (paused_step c a Hp Hk Ha) as (H1 & H2 & H3).
  specialize (IH _ H1 H2 Hs).
  rewrite exec_cons. cbn [fst snd]. rewrite reads_of_app, length_app. lia.
Qed.

Lemma reads_left_le c : (reads_left c ≤ 1)%nat.
Proof.
  unfold reads_left. destruct (thread c) as [t|]; [destruct (pc t)|];
    try destruct (_stop (self c)); lia.
Qed.

(** C6 (amended).  The pause flag is tested after a pass only.  A
    thread that sits in the pause loop of a paused, not stopped reader
    stays there with its offset and parser, and all it does is wait, as
    long as the reader is not resumed, stopped or given another path,
    whatever is appended to the file: no file is opened or read, no signal
    emitted.  A paused reader reads the file at most once more (the pass
    that was under way or about to begin, or the first pass of a thread
    started while paused).  And when a waiting thread is resumed, its next
    pass reads the file from the offset kept to its end: everything
    appended during the pause, and the entries delivered are those the
    parser calls back for these bytes. *)
Theorem pause_holds_after_pass :
  (∀ c t sched,
     thread c = Some t → pc t = L118_while_paused ∨ pc t = L120_wait →
     _paused (self c) = true → _stop (self c) = false →
     forallb keeps_paused sched = true →
     Forall (λ e, e = CondWait 1000) (exec sched c).2 ∧
     blocked t (exec sched c).1) ∧
  (∀ c sched,
     _paused (self c) = true → caller c = Idle →
     forallb keeps_paused sched = true →
     (length (reads_of (exec sched c).2) ≤ 1)%nat) ∧
  (∀ c t seen during e1 e2 e3 e4 e5 e6 e7 e8 e9 e10,
     thread c = Some t → pc t = L120_wait →
     _paused (self c) = true → steady c → caller c ≠ Destroyed →
     content_of c = seen ++ during → offset t = size_of seen →
     Forall appends_only [e1; e2; e3; e4; e5; e6; e7; e8; e9; e10] →
     let path := _logFilePath (self c) in
     let fed := during ++ appended path
                  (e1 ++ e2 ++ e3 ++ e4 ++ e5 ++ e6 ++ e7 ++ e8) in
     let r := exec (Invoke (setPause false)
                      :: ticks_with [e1; e2; e3; e4; e5; e6; e7; e8; e9; e10]) c in
     reads_of r.2 = [(size_of seen, fed)] ∧
     entries_of r.2 = (parseStream (parser t) fed).2).
Proof.
  split; [|split].
  - intros c t sched Ht Hpc Hp Hs Hk.
    destruct (blocked_exec t c sched) as [H1 H2]; try done.
    repeat split; try done. by exists t.
  - intros c sched Hp Hk Hs.
    pose proof (paused_exec c sched Hp Hk Hs). pose proof (reads_left_le c). lia.
  - intros c t seen during e1 e2 e3 e4 e5 e6 e7 e8 e9 e10.
    apply resume_reads.
Qed.

(** ** Properties and their change signals *)

Lemma changes_from_app {A : Type} (x0 x1 x2 : A) l1 l2 :
  changes_from x0 l1 x1 → changes_from x1 l2 x2 →
  changes_from x0 (l1 ++ l2) x2.
Proof.
  revert x0. induction l1 as [|y l1 IH]; intros x0; simpl.
  - by intros ->.
  - intros [Hy H1] H2. split; [done|]. by apply IH.
Qed.

Lemma pause_changes_app tr1 tr2 :
  pause_changes (tr1 ++ tr2) = pause_changes tr1 ++ pause_changes tr2.
Proof. apply flat_map_app. Qed.

Lemma size_changes_app tr1 tr2 :
  size_changes (tr1 ++ tr2) = size_changes tr1 ++ size_changes tr2.
Proof. apply flat_map_app. Qed.

Lemma pause_changes_newLog (es : list Entry) :
  pause_changes (map (λ e, Emit (newLog e)) es) = [].
Proof. by induction es. Qed.

Lemma size_changes_newLog (es : list Entry) :
  size_changes (map (λ e, Emit (newLog e)) es) = [].
Proof. by induction es. Qed.

Lemma finish_quiet c :
  pause_changes (finish c).2 = [] ∧ size_changes (finish c).2 = [].
Proof. unfold finish. by destruct (caller _) as [|[]|]. Qed.

Lemma tick_pause_changes c : pause_changes (tick c).2 = [].
Proof.
  by_label c; cases_of_tick; cbn [fst snd]; try done.
  - apply finish_quiet.
  - simpl. apply finish_quiet.
  - simpl. apply pause_changes_newLog.
Qed.

Lemma step_paused a c :
  changes_from (_paused (self c)) (pause_changes (step a c).2)
    (_paused (self (step a c).1)).
Proof.
  destruct a as [|m|op]; simpl.
  - rewrite tick_pause_changes. apply tick_paused.
  - destruct m as [|p|pause|];
      try (rewrite call_paused by done;
           unfold call, stop, QThread_start;
           destruct (caller c); simpl; try done;
           repeat match goal with
           | |- context [if ?b then _ else _] => destruct b; simpl; try done
           | |- context [resume ?k _] => destruct k; simpl; try done
           end).
    unfold call.
    destruct (caller c);
      try (destruct (Bool.eqb_spec pause (_paused (self c))); simpl; by auto);
      done.
  - by rewrite world_self.
Qed.

(** X1.  [isPaused()] and the paused-changed signals agree over any run
    from any state: every paused-changed signal carries a value other
    than the pause state before it (no signal without a change), and the
    pause state at the end is the value carried by the last signal, or
    the initial one if there was none. *)
Theorem paused_signals_track_flag c sched :
  changes_from (isPaused (self c)) (pause_changes (exec sched c).2)
    (isPaused (self (exec sched c).1)).
Proof.
  revert c. induction sched as [|a sched IH]; intros c; [done|].
  rewrite exec_cons. cbn [fst snd]. rewrite pause_changes_app.
  eapply changes_from_app; [apply step_paused | apply IH].
Qed.

Lemma call_fileSize m c : _fileSize (self (call m c).1) = _fileSize (self c).
Proof.
  unfold call, stop, QThread_start.
  destruct (caller c), m; simpl; try done;
    repeat match goal with
    | |- context [if ?b then _ else _] => destruct b; simpl; try done
    | |- context [resume ?k _] => destruct k; simpl; try done
    end.
Qed.

Lemma call_size_changes m c : size_changes (call m c).2 = [].
Proof.
  unfold call, stop, QThread_start.
  destruct (caller c), m; simpl; try done;
    repeat match goal with
    | |- context [if ?b then _ else _] => destruct b; simpl; try done
    | |- context [resume ?k _] => destruct k; simpl; try done
    end.
Qed.

Lemma step_fileSize a c :
  changes_from (_fileSize (self c)) (size_changes (step a c).2)
    (_fileSize (self (step a c).1)).
Proof.
  destruct a as [|m|op]; simpl.
  - by_label c; cases_of_tick; cbn [fst snd]; try done.
    + rewrite (proj2 (finish_quiet c)). apply finish_fileSize.
    + simpl. rewrite (proj2 (finish_quiet _)). by rewrite finish_fileSize.
    + simpl. split; [|done]. intros ->. by rewrite Z.eqb_refl in *.
    + simpl. by rewrite size_changes_newLog.
  - rewrite call_size_changes. apply call_fileSize.
  - by rewrite world_self.
Qed.

(** X2.  [getFileSize()] and the size-changed signals agree over any
    run from any state: every size-changed signal carries a size other
    than the one stored before it, and the size stored at the end is the
    one carried by the last signal, or the initial one if there was
    none.  Nothing but [setFileSize] writes the stored size: neither a
    change of path nor a restart of the thread resets it. *)
Theorem size_signals_track_size c sched :
  changes_from (getFileSize (self c)) (size_changes (exec sched c).2)
    (getFileSize (self (exec sched c).1)).
Proof.
  revert c. induction sched as [|a sched IH]; intros c; [done|].
  rewrite exec_cons. cbn [fst snd]. rewrite size_changes_app.
  eapply changes_from_app; [apply step_fileSize | apply IH].
Qed.

Lemma resume_path k c :
  pending_differs (with_caller (InStop k) c) →
  changes_from (_logFilePath (self c)) (path_changes (resume k c).2)
    (_logFilePath (self (resume k c).1)) ∧
  pending_differs (resume k c).1.
Proof.
  intros Hp. destruct k as [p|]; simpl.
  - split; [|by intros q]. split; [|done]. by apply Hp.
  - split; [done|]. by intros q.
Qed.

Lemma finish_path c :
  pending_differs c →
  changes_from (_logFilePath (self c)) (path_changes (finish c).2)
    (_logFilePath (self (finish c).1)) ∧
  pending_differs (finish c).1.
Proof.
  intros Hp. unfold finish. simpl.
  destruct (caller c) as [|k|] eqn:Hc.
  - split; [done|]. intros q. simpl. by rewrite Hc.
  - apply (resume_path k (with_thread None c)).
    intros q Hq. simpl in *. apply Hp. by rewrite Hc.
  - split; [done|]. intros q. simpl. by rewrite Hc.
Qed.

Lemma step_path a c :
  pending_differs c →
  changes_from (_logFilePath (self c)) (path_changes (step a c).2)
    (_logFilePath (self (step a c).1)) ∧
  pending_differs (step a c).1.
Proof.
  intros Hp. destruct a as [|m|op]; simpl.
  - by_label c; cases_of_tick; cbn [fst snd]; try (by split);
      try (by apply finish_path).
    + simpl. by apply (finish_path (with_self (set_stop true (self c)) c)).
    + simpl. rewrite path_changes_newLog. by split.
  - unfold call, QThread_start.
    destruct (caller c) as [|k|] eqn:Hc; destruct m as [|p|pause|];
      try (by split);
      try (destruct (Bool.eqb pause _); split; try done;
           intros q; simpl; rewrite Hc; by (discriminate || apply Hp)).
    + destruct (isRunning c); cbn [fst snd]; [by split|].
      split; [done|]. intros q. simpl. by rewrite Hc.
    + destruct (String.eqb_spec p (_logFilePath (self c))) as [|Hne];
        [by split|].
      unfold stop. destruct (isRunning _).
      * split; [done|]. intros q. simpl. by intros [= ->].
      * apply (resume_path (in_setLogFilePath p)
                 (with_self (set_stop true (self c)) c)).
        intros q. simpl. by intros [= ->].
    + unfold stop. destruct (isRunning _).
      * split; [done|]. by intros q.
      * apply (resume_path in_destructor
                 (with_self (set_stop true (self c)) c)).
        by intros q.
  - split; [by rewrite world_self|].
    intros q. rewrite world_caller, world_self. apply Hp.
Qed.

(** X3.  [getLogFilePath()] and the path-changed signals agree over any
    run, from any state in which no [setLogFilePath] for the current path
    is pending: every path-changed signal carries a path other than the
    one before it, and the path at the end is the one carried by the last
    signal, or the initial one if there was none. *)
Theorem path_signals_track_path c sched :
  pending_differs c →
  changes_from (getLogFilePath (self c)) (path_changes (exec sched c).2)
    (getLogFilePath (self (exec sched c).1)).
Proof.
  revert c. induction sched as [|a sched IH]; intros c Hp; [done|].
  rewrite exec_cons. cbn [fst snd]. rewrite path_changes_app.
  destruct (step_path a c Hp) as [H1 H2].
  eapply changes_from_app; [exact H1 | by apply IH].
Qed.

(** ** The stop flag and the errors *)

Lemma errors_of_app tr1 tr2 :
  errors_of (tr1 ++ tr2) = errors_of tr1 ++ errors_of tr2.
Proof. apply flat_map_app. Qed.

Lemma errors_of_newLog (es : list Entry) :
  errors_of (map (λ e, Emit (newLog e)) es) = [].
Proof. by induction es. Qed.

Lemma step_stop_explained a c n :
  stop_explained c n →
  stop_explained (step a c).1 (n + length (errors_of (step a c).2)).
Proof.
  unfold stop_explained. intros He. destruct a as [|m|op]; simpl.
  - by_label c; cases_of_tick; unfold finish; cbn [fst snd];
      destruct (caller c) as [|[]|] eqn:Hc; simpl; rewrite ?Hc;
      rewrite ?errors_of_newLog;
      try done; try (intros; lia); try (rewrite Nat.add_0_r; exact He);
      try (simpl; rewrite ?Hc; simpl; intros; lia);
      try (intros; congruence).
  - unfold call, stop, QThread_start, isRunning.
    destruct (caller c) as [|[]|] eqn:Hc; destruct m as [|p|pause|]; simpl;
      rewrite ?Hc, ?Nat.add_0_r; try done;
      repeat match goal with
      | |- context [if ?b then _ else _] =>
          destruct b; simpl; rewrite ?Hc, ?Nat.add_0_r; try done
      | |- context [match thread c with _ => _ end] =>
          destruct (thread c); simpl; rewrite ?Hc, ?Nat.add_0_r; try done
      end.
  - by rewrite world_caller, world_self, Nat.add_0_r.
Qed.

Lemma exec_stop_explained sched c n :
  stop_explained c n →
  stop_explained (exec sched c).1 (n + length (errors_of (exec sched c).2)).
Proof.
  revert c n. induction sched as [|a sched IH]; intros c n He.
  { simpl. by rewrite Nat.add_0_r. }
  rewrite exec_cons. cbn [fst snd].
  rewrite errors_of_app, length_app, Nat.add_assoc.
  by apply IH, step_stop_explained.
Qed.

(** X4.  Over any run of a freshly constructed reader: if no error
    signal has been emitted and no [stop()] is under way (no
    [setLogFilePath] or destructor waits for the thread), the stop flag is
    clear.  [stop()] always clears the flag it sets; only a failure to
    open the file leaves it set. *)
Theorem stop_flag_clear_without_error m sched :
  errors_of (exec sched (fresh m)).2 = [] →
  (∀ k, caller (exec sched (fresh m)).1 ≠ InStop k) →
  _stop (self (exec sched (fresh m)).1) = false.
Proof.
  intros He Hk.
  assert (H0 : stop_explained (fresh m) 0) by (simpl; done).
  pose proof (exec_stop_explained sched (fresh m) 0 H0) as H.
  unfold stop_explained in H. rewrite He in H. simpl in H.
  destruct (caller _) as [|k|] eqn:Hc.
  - destruct (_stop _); [by destruct (H eq_refl) | done].
  - by destruct (Hk k).
  - destruct (_stop _); [by destruct (H eq_refl) | done].
Qed.

(** ** Passes are carried through *)

Lemma opens_ok_app tr1 tr2 : opens_ok (tr1 ++ tr2) = (opens_ok tr1 + opens_ok tr2)%nat.
Proof. unfold opens_ok. by rewrite List.filter_app, length_app. Qed.

Lemma opens_ok_thread_trace tr : opens_ok (thread_trace tr) = opens_ok tr.
Proof.
  unfold opens_ok. induction tr as [|e tr IH]; [done|].
  rewrite thread_trace_cons.
  destruct e as [[]| ? []| | |]; simpl; by rewrite ?IH.
Qed.

Lemma opens_ok_newLog (es : list Entry) :
  opens_ok (map (λ e, Emit (newLog e)) es) = 0%nat.
Proof. by induction es. Qed.

Lemma finish_counts c :
  opens_ok (finish c).2 = 0%nat ∧ fileEnds_of (finish c).2 = [] ∧
  reads_of (finish c).2 = [] ∧
  in_pass (finish c).1 = 0%nat ∧ unread (finish c).1 = 0%nat.
Proof.
  unfold in_pass, unread, stream_open. rewrite finish_thread.
  unfold finish. by destruct (caller _) as [|[]|].
Qed.

Lemma call_counts m c :
  opens_ok (call m c).2 = 0%nat ∧ fileEnds_of (call m c).2 = [] ∧
  reads_of (call m c).2 = [] ∧
  in_pass (call m c).1 = in_pass c ∧ unread (call m c).1 = unread c.
Proof.
  rewrite <- opens_ok_thread_trace, <- fileEnds_of_thread_trace,
    <- reads_of_thread_trace, call_thread_trace.
  do 3 (split; [done|]).
  unfold in_pass, unread, stream_open.
  destruct (thread c) as [t|] eqn:Ht.
  - destruct (call_running m c t Ht) as (-> & _). done.
  - unfold call, stop, QThread_start, isRunning.
    destruct (caller c) as [|[]|], m; simpl; rewrite ?Ht; simpl;
      rewrite ?Ht; try done;
      repeat match goal with
      | |- context [if ?b then _ else _] =>
          destruct b; simpl; rewrite ?Ht; try done
      end.
Qed.

Lemma step_counts a c :
  (opens_ok (step a c).2 + in_pass c =
   length (fileEnds_of (step a c).2) + in_pass (step a c).1)%nat ∧
  (opens_ok (step a c).2 + unread c =
   length (reads_of (step a c).2) + unread (step a c).1)%nat.
Proof.
  destruct a as [|m|op]; simpl.
  - remember (in_pass c) as ip eqn:Hip. remember (unread c) as ur eqn:Hur.
    unfold in_pass, unread, stream_open in Hip, Hur.
    by_label c; simpl in Hip, Hur; subst ip ur; cases_of_tick; cbn [fst snd];
      rewrite ?(proj1 (finish_counts _)),
        ?(proj1 (proj2 (finish_counts _))),
        ?(proj1 (proj2 (proj2 (finish_counts _)))),
        ?(proj1 (proj2 (proj2 (proj2 (finish_counts _))))),
        ?(proj2 (proj2 (proj2 (proj2 (finish_counts _)))));
      try done.
    + unfold opens_ok. simpl. fold (opens_ok (finish (with_self (set_stop true (self c)) c)).2).
      by rewrite (proj1 (finish_counts _)),
        (proj1 (proj2 (finish_counts _))),
        (proj1 (proj2 (proj2 (finish_counts _)))).
    + unfold opens_ok. simpl.
      change (length (List.filter _ (map _ ?es)))
        with (opens_ok (map (λ e, Emit (newLog e)) es)).
      by rewrite opens_ok_newLog, fileEnds_of_newLog, reads_of_newLog.
    + unfold in_pass, unread, stream_open. by rewrite Ht.
  - by destruct (call_counts m c) as (-> & -> & -> & -> & ->).
  - unfold in_pass, unread, stream_open. by rewrite world_thread.
Qed.

(** X5.  Every pass is carried through.  Over any run from any state,
    the successful opens of the file are matched one to one by the reads
    of the stream and by the batch-end signals, up to the one pass the
    thread is inside at the beginning or at the end: neither a stop
    request nor a pause nor a change of the file cuts a pass short
    between the open and the batch end. *)
Theorem every_pass_completes c sched :
  (opens_ok (exec sched c).2 + in_pass c =
   length (fileEnds_of (exec sched c).2) + in_pass (exec sched c).1)%nat ∧
  (opens_ok (exec sched c).2 + unread c =
   length (reads_of (exec sched c).2) + unread (exec sched c).1)%nat.
Proof.
  revert c. induction sched as [|a sched IH]; intros c; [by simpl|].
  rewrite exec_cons. cbn [fst snd].
  rewrite opens_ok_app, fileEnds_of_app, reads_of_app, !length_app.
  destruct (step_counts a c) as [H1 H2].
  destruct (IH (step a c).1) as [J1 J2]. lia.
Qed.

(** ** After a failure to open the file *)

Lemma call_same_path c :
  call (setLogFilePath (_logFilePath (self c))) c = (c, []).
Proof. unfold call. rewrite String.eqb_refl. by destruct (caller c). Qed.

Lemma halted_path a c :
  halted c → (∀ p, a ≠ Invoke (setLogFilePath p)) →
  _logFilePath (self (step a c).1) = _logFilePath (self c).
Proof.
  unfold halted. intros Hh Ha. destruct a as [|m|op]; simpl.
  - destruct (thread c) as [t|] eqn:Ht; [|at_label; done].
    assert (pc t = L92_while ∧ _stop (self c) = true) as [Hpc Hst].
    { destruct (caller c) as [|[]|]; intuition congruence. }
    at_label. rewrite Hst. unfold finish. simpl.
    destruct (caller c) as [|[]|] eqn:Hc; simpl; rewrite ?Hc; try done.
  - unfold call, stop, QThread_start, isRunning.
    destruct (caller c) as [|[]|] eqn:Hc; destruct m as [|p|pause|];
      try (by destruct (Ha p)); simpl; try done;
      repeat match goal with
      | |- context [if ?b then _ else _] => destruct b; simpl; try done
      | |- context [match thread c with _ => _ end] =>
          destruct (thread c); simpl; try done
      end.
  - by rewrite world_self.
Qed.

Lemma halted_exec_same_path sched c :
  halted c →
  (∀ p, Invoke (setLogFilePath p) ∈ sched → p = _logFilePath (self c)) →
  thread_trace (exec sched c).2 = [] ∧
  _logFilePath (self (exec sched c).1) = _logFilePath (self c).
Proof.
  revert c. induction sched as [|a sched IH]; intros c Hh Hs; [done|].
  rewrite exec_cons. cbn [fst snd]. rewrite thread_trace_app.
  assert (Hcase : (∃ p, a = Invoke (setLogFilePath p)) ∨
                  (∀ p, a ≠ Invoke (setLogFilePath p))).
  { destruct a as [|[|p|pause|]|op]; try (by right); left; by eexists. }
  destruct Hcase as [[p ->]|Ha].
  - rewrite (Hs p) by by left.
    simpl. rewrite call_same_path. cbn [fst snd].
    apply IH; [done|]. intros q Hq. apply Hs. by right.
  - destruct (halted_step a c Hh Ha) as [H1 H2].
    pose proof (halted_path a c Hh Ha) as H3.
    destruct (IH (step a c).1 H1) as [J1 J2].
    { intros q Hq. rewrite H3. apply Hs. by right. }
    by rewrite H2, J1, J2, H3.
Qed.

(** X6.  After a failure to open the file, setting the same path again
    does not bring the reader back: [setLogFilePath] returns at line 45
    without reaching [stop()], the stop flag stays set, and in any run in
    which [setLogFilePath] is only called with the current path the thread
    does nothing at all, whatever files are created and however often
    [start] is called. *)
Theorem same_path_retry_is_futile c t sched :
  thread c = Some t → pc t = L94_open →
  fs c !! _logFilePath (self c) = None →
  caller c = Idle →
  (∀ p, Invoke (setLogFilePath p) ∈ sched → p = _logFilePath (self c)) →
  thread_trace (exec sched (tick c).1).2 = [] ∧
  _logFilePath (self (exec sched (tick c).1).1) = _logFilePath (self c).
Proof.
  intros Ht Hpc Hf Hc Hs.
  rewrite (tick_open_fails c t Ht Hpc Hf). cbn [fst].
  assert (E : (finish (with_self (set_stop true (self c)) c)).1 =
              with_thread None (with_self (set_stop true (self c)) c)).
  { unfold finish. simpl. by rewrite Hc. }
  rewrite E.
  apply (halted_exec_same_path sched
           (with_thread None (with_self (set_stop true (self c)) c))); [|done].
  unfold halted. simpl. by rewrite Hc.
Qed.

(** ** Starting afresh *)

(** From the head of the loop to the size determination, when the
    reader is not stopped and the file only grows. *)
Lemma head_to_tellg c t e1 e2 :
  thread c = Some t → pc t = L92_while → steady c →
  appends_only e1 → appends_only e2 →
  let r := exec (ticks_with [e1; e2]) c in
  thread r.1 =
    Some {| pc := L102_tellg; parser := parser t; offset := offset t |} ∧
  self r.1 = self c ∧
  thread_trace r.2 = [IoOpen (_logFilePath (self c)) true] ∧
  content_of r.1 = content_of c ++ appended (_logFilePath (self c)) (e1 ++ e2) ∧
  steady r.1.
Proof.
  intros Ht Hpc Hst A1 A2. cbv zeta. pose proof Hst as [Hs Hf].
  rewrite !ticks_with_trace, !ticks_with_config by auto using appends_only_env.
  change (ticks_with []) with (@nil Action). rewrite exec_nil. cbn [fst snd].
  rewrite (tick_while c t Ht Hpc Hs). cbn [fst snd].
  set (c1 := goto L94_open t c).
  destruct (appends_exec e1 c1 A1) as (T1 & S1 & _ & _ & C1 & St1).
  change (self c1) with (self c) in S1, C1.
  change (content_of c1) with (content_of c) in C1.
  assert (steady (exec e1 c1).1) as [Hs1 Hf1] by by apply St1.
  rewrite (tick_open _ _ T1 eq_refl Hf1). cbn [fst snd].
  set (c2 := goto L102_tellg _ _).
  destruct (appends_exec e2 c2 A2) as (T2 & S2 & _ & _ & C2 & St2).
  change (self c2) with (self (exec e1 c1).1) in S2, C2.
  change (content_of c2) with (content_of (exec e1 c1).1) in C2.
  rewrite S1 in S2, C2. rewrite C1 in C2.
  split; [exact T2|]. split; [exact S2|]. split; [by rewrite S1|].
  split; [by rewrite C2, appended_app, <- app_assoc|].
  apply St2. by split.
Qed.

(** The first pass of a thread that has just been started on a file
    that is there and only grows. *)
Lemma first_pass c t e1 e2 e3 e4 e5 e6 e7 :
  thread c = Some t → pc t = L92_while → offset t = -1 → steady c →
  Forall appends_only [e1; e2; e3; e4; e5; e6; e7] →
  let path := _logFilePath (self c) in
  let fed := content_of c ++ appended path (e1 ++ e2 ++ e3 ++ e4 ++ e5) in
  let r := exec (ticks_with [e1; e2; e3; e4; e5; e6; e7]) c in
  reads_of r.2 = [(0, fed)] ∧
  entries_of r.2 = (parseStream (parser t) fed).2 ∧
  _logFilePath (self r.1) = path.
Proof.
  intros Ht Hpc Ho Hst He path fed r. subst r fed.
  repeat match goal with
  | H : Forall _ (_ :: _) |- _ =>
      let A := fresh "A" in inversion H as [|? ? A ?]; subst; clear H
  | H : Forall _ [] |- _ => clear H
  end.
  change [e1; e2; e3; e4; e5; e6; e7] with ([e1; e2] ++ [e3; e4; e5; e6; e7]).
  rewrite ticks_with_app, exec_app. cbn [fst snd].
  rewrite reads_of_app, entries_of_app.
  destruct (head_to_tellg c t e1 e2 Ht Hpc Hst) as (T1 & S1 & Tr1 & C1 & St1);
    try done.
  set (r1 := exec (ticks_with [e1; e2]) c) in *.
  rewrite <- (reads_of_thread_trace r1.2), <- (entries_of_thread_trace r1.2), Tr1.
  destruct (pass_from_tellg r1.1 _ e3 e4 e5 e6 e7 T1 eq_refl) as (_ & _ & Tr2);
    auto using appends_only_env.
  set (r2 := exec (ticks_with [e3; e4; e5; e6; e7]) r1.1) in *.
  rewrite <- (reads_of_thread_trace r2.2), <- (entries_of_thread_trace r2.2), Tr2.
  destruct (steady_ticks [e3; e4; e5] r1.1 St1) as (_ & _ & _ & _ & C3);
    [by repeat constructor|].
  destruct (steady_ticks [e3; e4; e5; e6; e7] r1.1 St1) as (_ & _ & L5 & _);
    [by repeat constructor|].
  fold r2 in L5.
  rewrite C3, C1, S1, L5. cbn [offset parser concat]. rewrite Ho.
  change (seek_pos (-1) ?s) with 0. change (drop (Z.to_nat 0) ?l) with l.
  rewrite reads_of_pass, entries_of_pass.
  rewrite reads_of_setFileSize, entries_of_setFileSize.
  fold path. rewrite !app_nil_r, !appended_app, <- !app_assoc.
  split; [done|]. split; [done|]. by rewrite S1.
Qed.

(** X7.  After a failure or a stop, another path and [start] bring the
    reader back.  On a reader whose thread is not running, whatever its
    stop flag, stored size and previous path are, [setLogFilePath] with
    another path whose file is there followed by [start] makes the thread
    read that file from position 0 in its first pass, with a new parser:
    what is read is the whole file (with what is appended to it before
    the read), and the entries delivered are those of the whole file. *)
Theorem other_path_then_start_reads_all c q e1 e2 e3 e4 e5 e6 e7 :
  thread c = None → caller c = Idle →
  q ≠ _logFilePath (self c) → is_Some (fs c !! q) →
  Forall appends_only [e1; e2; e3; e4; e5; e6; e7] →
  let fed := default [] (fs c !! q)
               ++ appended q (e1 ++ e2 ++ e3 ++ e4 ++ e5) in
  let r := exec (Invoke (setLogFilePath q) :: Invoke start
                   :: ticks_with [e1; e2; e3; e4; e5; e6; e7]) c in
  reads_of r.2 = [(0, fed)] ∧
  entries_of r.2 = (parseStream parser_new fed).2 ∧
  getLogFilePath (self r.1) = q.
Proof.
  intros Ht Hc Hq Hf He fed r. subst r fed.
  rewrite !exec_cons. cbn [step].
  assert (E1 : call (setLogFilePath q) c =
    (with_caller Idle
       (with_self (set_logFilePath q (set_stop false (set_stop true (self c))))
          (with_self (set_stop true (self c)) c)),
     [Emit (logFilePathChanged q)])).
  { unfold call. rewrite Hc.
    destruct (String.eqb_spec q (_logFilePath (self c))) as [|_]; [done|].
    unfold stop, isRunning. simpl. by rewrite Ht. }
  rewrite E1. cbn [fst snd]. clear E1.
  set (c1 := with_caller Idle _).
  assert (E2 : call start c1 =
    (with_thread
       (Some {| pc := L92_while; parser := parser_new; offset := -1 |}) c1, [])).
  { unfold call, QThread_start, isRunning. simpl. by rewrite Ht. }
  rewrite E2. cbn [fst snd]. clear E2.
  set (c2 := with_thread _ c1).
  destruct (first_pass c2 _ e1 e2 e3 e4 e5 e6 e7 eq_refl eq_refl eq_refl)
    as (R & En & L); [by split|done|].
  cbn [app reads_of entries_of flat_map].
  change (reads_of ?tr) with (reads_of tr) in R.
  split; [exact R|]. split; [exact En | exact L].
Qed.

(** ** Passes that find nothing new, or a file replaced *)

Lemma drop_size_of (l : list byte) : drop (Z.to_nat (size_of l)) l = [].
Proof. unfold size_of. rewrite Nat2Z.id. apply drop_all. Qed.

Lemma seek_pos_same (l : list byte) : seek_pos (size_of l) (size_of l) = size_of l.
Proof. rewrite <- (app_nil_r l) at 2. apply seek_pos_grown. Qed.

(** X8.  A pass over a file that has not changed since the last one
    (the offset kept and the size stored are the size of the file) still
    feeds the parser, with an empty stream, and still emits a batch end,
    with the same offset; it emits no size change.  So the parser is
    called and a batch end is emitted once per polling round, new data or
    not. *)
Theorem pass_without_news c t e1 e2 e3 e4 e5 :
  thread c = Some t → pc t = L102_tellg →
  env_only e1 → env_only e2 → env_only e3 → env_only e4 → env_only e5 →
  offset t = size_of (content_of c) →
  _fileSize (self c) = size_of (content_of c) →
  content_of (exec (ticks_with [e1; e2; e3]) c).1 = content_of c →
  let s := size_of (content_of c) in
  let r := exec (ticks_with [e1; e2; e3; e4; e5]) c in
  thread_trace r.2 =
    IoRead s [] :: map (λ e, Emit (newLog e)) (parseStream (parser t) []).2
      ++ [Emit (fileEnd (to_int s))] ∧
  offset <$> thread r.1 = Some s.
Proof.
  intros Ht Hpc He1 He2 He3 He4 He5 Ho Hf Hc s r.
  destruct (pass_from_tellg c t e1 e2 e3 e4 e5) as (T & _ & Tr); try done.
  assert (Hpos : seek_pos (offset t) (size_of (content_of c)) =
                 size_of (content_of c)) by (rewrite Ho; apply seek_pos_same).
  rewrite Hc, Hpos, drop_size_of in T, Tr.
  unfold setFileSize in Tr. rewrite Hf, Z.eqb_refl in Tr.
  subst s r. by rewrite Tr, T.
Qed.

(** X9.  A file replaced by one that is not shorter than the offset
    kept goes unnoticed: the next pass reads the new file from the old
    offset on, never its first bytes, and announces its size.  Only a
    file shorter than the offset is read from the beginning. *)
Theorem longer_rewrite_is_not_reread c t content :
  thread c = Some t → pc t = L118_while_paused →
  _stop (self c) = false → _paused (self c) = false →
  0 ≤ offset t ≤ size_of content →
  let r := exec (World (Rewrite (_logFilePath (self c)) content)
                   :: ticks_with ([[]; []; []; []] ++ [[]; []; []; []; []])) c in
  reads_of r.2 = [(offset t, drop (Z.to_nat (offset t)) content)] ∧
  fileEnds_of r.2 = [to_int (size_of content)] ∧
  offset <$> thread r.1 = Some (size_of content).
Proof.
  intros Ht Hpc Hs Hp Hin. cbv zeta.
  rewrite exec_cons. cbn [step fst snd].
  set (c0 := world _ c).
  assert (Hc0 : content_of c0 = content).
  { unfold c0, content_of. simpl. by rewrite lookup_insert_eq. }
  assert (St0 : steady c0).
  { split; [done|]. unfold c0. simpl. rewrite lookup_insert_eq. by eexists. }
  rewrite ticks_with_app, exec_app. cbn [fst snd].
  destruct (idle_to_tellg c0 t [] [] [] [] Ht Hpc St0 Hp) as (T1 & S1 & Tr1 & C1);
    try by constructor.
  set (r1 := exec (ticks_with [[]; []; []; []]) c0) in *.
  simpl in C1. rewrite app_nil_r, Hc0 in C1.
  destruct (pass_from_tellg r1.1 _ [] [] [] [] [] T1 eq_refl) as (T2 & F2 & Tr2);
    try by constructor.
  cbn [parser offset] in T2, Tr2.
  set (r2 := exec (ticks_with [[]; []; []; []; []]) r1.1) in *.
  assert (Hpos : seek_pos (offset t) (size_of content) = offset t).
  { unfold seek_pos. replace (offset t <? 0) with false by lia.
    by replace (offset t >? size_of content) with false by lia. }
  rewrite C1, Hpos in T2, Tr2.
  assert (Hfed : content_of (exec (ticks_with [[]; []; []]) r1.1).1 = content).
  { assert (St1 : steady r1.1).
    { by destruct (steady_ticks [[]; []; []; []] c0 St0);
        [repeat constructor|]. }
    destruct (steady_ticks [[]; []; []] r1.1 St1) as (_ & _ & _ & _ & C3);
      [by repeat constructor|].
    rewrite C3, C1. simpl. by rewrite app_nil_r. }
  rewrite Hfed in T2, Tr2.
  rewrite app_nil_l, reads_of_app, fileEnds_of_app.
  rewrite <- (reads_of_thread_trace r1.2), <- (fileEnds_of_thread_trace r1.2), Tr1.
  rewrite <- (reads_of_thread_trace r2.2), <- (fileEnds_of_thread_trace r2.2), Tr2.
  rewrite reads_of_pass, reads_of_setFileSize.
  rewrite T2. repeat split.
  rewrite fileEnds_of_app. simpl. rewrite fileEnds_of_app, fileEnds_of_newLog.
  unfold setFileSize. by destruct (_ =? _).
Qed.

(** ** The destructor *)

(** X10.  The destructor only stops the thread.  It sets the stop flag
    and waits: while the thread runs the flag is set; the thread has
    returned after at most nine of its statements, and then the flag is
    clear again.  In all that the destructor emits no path-changed signal
    and leaves the path as it is. *)
Theorem destructor_only_stops c sched :
  caller c = Idle → forallb bystander sched = true →
  let r := exec (Invoke destroy :: sched) c in
  path_changes r.2 = [] ∧
  _logFilePath (self r.1) = _logFilePath (self c) ∧
  (isRunning r.1 = true →
     caller r.1 = InStop in_destructor ∧ _stop (self r.1) = true) ∧
  (isRunning r.1 = false →
     caller r.1 = Destroyed ∧ _stop (self r.1) = false) ∧
  ((9 ≤ count_ticks sched)%nat → isRunning r.1 = false).
Proof.
  intros Hc Hb r. subst r. rewrite exec_cons. cbn [step fst snd].
  set (old := _logFilePath (self c)).
  assert (H0 : (call destroy c).2 = [] ∧
    ((∃ t, thread (call destroy c).1 = Some t ∧
           stopping in_destructor old (call destroy c).1) ∨
     stopped_as in_destructor old (call destroy c).1)).
  { unfold call. rewrite Hc. unfold stop, isRunning. cbn [thread with_self].
    destruct (thread c) as [t|] eqn:Ht; simpl.
    - split; [done|]. left. exists t. split; [done|].
      split; [by exists t | done].
    - split; [done|]. right. by repeat split. }
  destruct H0 as [E0 H0]. rewrite E0, app_nil_l.
  set (c1 := (call destroy c).1) in *. unfold isRunning.
  destruct H0 as [(t & Ht1 & Hst)|Hsd].
  - destruct (stopping_exec _ _ c1 sched Hst Hb)
      as [[([t' T] & S & K & L) Pc]|[(T & S & K & L) Pc]]; rewrite T.
    + repeat split; try done. intros Hn.
      pose proof (exit_within _ _ c1 t sched Hst Ht1 Hb) as Hx.
      pose proof (exit_bound_le (pc t)).
      rewrite T in Hx. discriminate Hx. lia.
    + simpl in Pc. by repeat split.
  - destruct (stopped_exec _ _ c1 sched Hsd Hb) as ((T & S & K & L) & Pc & _).
    rewrite T. by repeat split.
Qed.

End Facts.

(** * Concrete runs *)

Local Instance LineParser_chunks : ChunkParser LineParser.
Proof.
  constructor. simpl. intros s a. revert s.
  induction a as [|x a IH]; intros s b; simpl.
  - by destruct (feed_lines s b).
  - destruct (Byte.eqb x x0a).
    + rewrite IH. destruct (feed_lines [] a) as [s1 e1].
      by destruct (feed_lines s1 b).
    + apply IH.
Qed.

(** Hypotheses of the kind met below, on closed terms. *)
Ltac closed_run :=
  first
    [ reflexivity
    | by (vm_compute; reflexivity)
    | by (vm_compute; eexists)
    | by (repeat constructor)
    | by (intros ? ?; discriminate) ].

(** C10 at work: a constructed reader that is started and runs a whole
    pass without [setPause] being called is still paused. *)
Lemma constructed_paused_witness :
  isPaused
    (self (exec (Invoke (setLogFilePath log) :: Invoke start :: ticks 9)
             (fresh (P:=LineParser) {[ log := line "A" ]})).1) = true.
Proof.
  apply (proj2 (proj2 (constructed_paused (P:=LineParser)))).
  intros b Hb. vm_compute in Hb.
  repeat (apply elem_of_cons in Hb as [Hb|Hb]; [discriminate|]).
  by apply elem_of_nil in Hb.
Defined.

(** The size of the file of 2^31 bytes, without building it. *)
Lemma size_of_huge :
  size_of (content_of (reader (P:=LineParser) false (thread_at L102_tellg (-1))
                         (Some huge))) = 2 ^ 31.
Proof.
  unfold content_of, reader. cbn [fs self _logFilePath].
  rewrite lookup_singleton_eq. cbn [default from_option]. unfold id, size_of, huge.
  rewrite length_replicate. apply Z2Nat.id. lia.
Defined.

(** C9 at work: a pass over a file of two bytes announces offset 2; a
    pass over a file of 2^31 bytes announces -2^31. *)
Lemma fileEnd_payload_narrowed_witness :
  fileEnds_of
    (exec (ticks_with [[]; []; []; []; []])
       (reader (P:=LineParser) false (thread_at L102_tellg (-1))
          (Some (line "A")))).2 = [2] ∧
  2 ^ 31 ≤ size_of (content_of (reader (P:=LineParser) false
                                  (thread_at L102_tellg (-1)) (Some huge))) ∧
  fileEnds_of
    (exec (ticks_with [[]; []; []; []; []])
       (reader (P:=LineParser) false (thread_at L102_tellg (-1))
          (Some huge))).2 = [- 2 ^ 31] ∧
  to_int (2 ^ 31) ≠ 2 ^ 31.
Proof.
  pose proof (fileEnd_payload_narrowed (P:=LineParser)
    (reader false (thread_at L102_tellg (-1)) (Some (line "A"))) _
    [] [] [] [] [] eq_refl eq_refl
    (List.Forall_nil _) (List.Forall_nil _) (List.Forall_nil _)
    (List.Forall_nil _) (List.Forall_nil _)) as Hsmall.
  pose proof (fileEnd_payload_narrowed (P:=LineParser)
    (reader false (thread_at L102_tellg (-1)) (Some huge)) _
    [] [] [] [] [] eq_refl eq_refl
    (List.Forall_nil _) (List.Forall_nil _) (List.Forall_nil _)
    (List.Forall_nil _) (List.Forall_nil _)) as Hhuge.
  cbv zeta in Hsmall, Hhuge.
  destruct Hsmall as (S1 & _).
  destruct Hhuge as (H1 & _ & _ & _ & _ & H6).
  rewrite size_of_huge in H1, H6.
  split; [exact S1|]. split; [rewrite size_of_huge; lia|].
  split; [exact H1|]. apply H6. lia.
Defined.


(** C5 at work: the file is not there when the thread tries to open
    it; the thread leaves one error behind and a later [start] gets
    nothing out of it. *)
Lemma open_failure_terminal_witness :
  thread_trace
    (tick (reader (P:=LineParser) false (thread_at L94_open (-1)) None)).2 =
  [IoOpen log false; Emit (errorOccurred "Can't open file: Damage.log")] ∧
  _stop (self (tick (reader (P:=LineParser) false
                       (thread_at L94_open (-1)) None)).1) = true ∧
  thread_trace
    (exec (World (Rewrite log (line "A")) :: Invoke start :: ticks 12)
       (tick (reader (P:=LineParser) false (thread_at L94_open (-1)) None)).1).2
  = [].
Proof.
  destruct (open_failure_terminal (P:=LineParser)
              (reader false (thread_at L94_open (-1)) None) _
              eq_refl eq_refl eq_refl) as (_ & H2 & H3 & H4).
  split; [exact H2|]. split; [by apply H3|].
  apply H4.
  - intros p Hp. discriminate Hp.
  - intros p Hp. vm_compute in Hp.
    repeat (apply elem_of_cons in Hp as [Hp|Hp]; [discriminate|]).
    by apply elem_of_nil in Hp.
Defined.

(** C2 at work: after the first pass of a constructed reader the offset
    is the stored size; a pass that finds two bytes where the offset kept
    is eight reads the file from its beginning; and when a file of eight
    bytes that has been read is truncated and rewritten with two bytes
    the next pass reads the new file from 0 and announces 2. *)
Lemma offset_within_file_witness :
  (∀ t,
     thread (exec (Invoke (setLogFilePath log) :: Invoke start :: ticks 6)
               (fresh (P:=LineParser) {[ log := line "A" ]})).1 = Some t →
     0 ≤ offset t ≤ 2) ∧
  reads_of
    (exec (ticks_with [[]; []; []; []; []])
       (reader (P:=LineParser) false (thread_at L102_tellg 8)
          (Some (line "B")))).2 = [(0, line "B")] ∧
  (let r := exec (World (Rewrite log (line "B")) :: ticks 9)
              (reader (P:=LineParser) false (thread_at L118_while_paused 8)
                 (Some (bytes "ENTRY-A" ++ nl))) in
   reads_of r.2 = [(0, line "B")] ∧ fileEnds_of r.2 = [2]).
Proof.
  destruct (offset_within_file (P:=LineParser)) as (H1 & H2 & H3).
  split; [|split].
  - intros t Ht.
    apply (H1 {[ log := line "A" ]}
              (Invoke (setLogFilePath log) :: Invoke start :: ticks 6) t Ht).
    vm_compute in Ht. injection Ht as <-. reflexivity.
  - apply (H2 (reader false (thread_at L102_tellg 8) (Some (line "B")))
              {| pc := L102_tellg; parser := parser_new; offset := 8 |}
              [] [] [] [] []); closed_run.
  - destruct (H3 (reader false (thread_at L118_while_paused 8)
                    (Some (bytes "ENTRY-A" ++ nl)))
                 {| pc := L118_while_paused; parser := parser_new; offset := 8 |}
                 (line "B") eq_refl eq_refl eq_refl eq_refl eq_refl)
      as (R & E & _).
    split; [exact R | exact E].
Defined.

(** C3 at work: with offset 3 kept and size 8 determined the stream is
    positioned at 3 and the offset becomes 8 before anything is read; a
    new thread starts with offset -1; and a line appended right after the
    size determination of one pass is read by the next pass. *)
Lemma seek_then_record_witness :
  tick (reader (P:=LineParser) false (thread_at (L106_seekg 8) 3)
          (Some (line "A"))) =
  (reader false (thread_at (L112_parseStream 3) 8) (Some (line "A")), []) ∧
  offset <$> thread (QThread_start
                       (reader (P:=LineParser) false None (Some (line "A"))))
  = Some (-1) ∧
  reads_of
    (exec (ticks_with
             [[World (Append log (line "B"))]; []; []; []; []; []; []; [];
              []; []; []; []; []; []])
       (reader (P:=LineParser) false (thread_at L102_tellg 0)
          (Some (line "A")))).2 =
  [(0, line "A" ++ line "B"); (2, line "B")].
Proof.
  destruct (seek_then_record (P:=LineParser)) as (H1 & H2 & H3).
  split; [|split].
  - destruct (H1 (reader false (thread_at (L106_seekg 8) 3) (Some (line "A")))
                {| pc := L106_seekg 8; parser := parser_new; offset := 3 |} 8
                eq_refl eq_refl) as (pos & E & _ & Hin).
    rewrite E, (Hin ltac:(simpl; lia)). reflexivity.
  - by apply H2.
  - etransitivity.
    + apply (H3 (reader false (thread_at L102_tellg 0) (Some (line "A")))
               {| pc := L102_tellg; parser := parser_new; offset := 0 |}
               [World (Append log (line "B"))] [] [] [] [] [] [] [] [] []
               [] [] [] []); try closed_run.
      repeat constructor. by eexists _, _.
    + reflexivity.
Defined.

(** C3 as worded fails: the line appended right after the size
    determination is read by that very pass, which reads to the end of
    the file, not to the size it recorded. *)
Lemma late_bytes_read_at_once :
  reads_of
    (exec (ticks_with [[World (Append log (line "B"))]; []; []; []; []])
       (reader (P:=LineParser) false (thread_at L102_tellg 0)
          (Some (line "A")))).2 = [(0, line "A" ++ line "B")] ∧
  entries_of
    (exec (ticks_with [[World (Append log (line "B"))]; []; []; []; []])
       (reader (P:=LineParser) false (thread_at L102_tellg 0)
          (Some (line "A")))).2 = [bytes "A"; bytes "B"] ∧
  ¬ spec_late_bytes_deferred (P:=LineParser).
Proof.
  split; [reflexivity|]. split; [reflexivity|].
  intros H.
  specialize (H (reader false (thread_at L102_tellg 0) (Some (line "A")))
                {| pc := L102_tellg; parser := parser_new; offset := 0 |}
                (line "B") eq_refl eq_refl
                (conj eq_refl (ex_intro _ (line "A") eq_refl))).
  vm_compute in H. discriminate H.
Qed.

(** C1 at work: a line, a first pass, a second line appended during
    the sleep, a second pass; the two entries delivered are those of a
    one-shot parse of the two lines. *)
Lemma tailing_is_one_shot_parse_witness :
  tailing two_rounds
    (reader (P:=LineParser) false None (Some (line "A"))) = true ∧
  entries_of
    (exec two_rounds (reader (P:=LineParser) false None (Some (line "A")))).2
  = [bytes "A"; bytes "B"] ∧
  (parseStream (Parser:=LineParser) parser_new (line "A" ++ line "B")).2
  = [bytes "A"; bytes "B"].
Proof.
  split; [reflexivity|]. split; [|reflexivity].
  etransitivity.
  - apply (tailing_is_one_shot_parse (P:=LineParser)
             (reader false None (Some (line "A"))) two_rounds); closed_run.
  - reflexivity.
Defined.

(** C1 as worded fails, for two reasons.  With a parser that keeps
    nothing between calls a line that is written in two pieces is
    delivered as two entries.  And with a parser that may be fed in
    pieces a line appended between the size determination and the read of
    a pass is delivered by that pass and again by the next. *)
Lemma tailing_differs_from_one_shot :
  ¬ spec_tailing_one_shot (P:=GetlineParser) ∧
  ¬ spec_tailing_one_shot (P:=LineParser) ∧
  entries_of
    (exec split_line (reader (P:=GetlineParser) false None (Some (bytes "AB")))).2
  = [bytes "AB"; bytes "C"] ∧
  entries_of
    (exec late_append (reader (P:=LineParser) false None (Some (line "A")))).2
  = [bytes "A"; bytes "B"; bytes "B"].
Proof.
  split; [|split; [|split; reflexivity]].
  - intros H.
    specialize (H (reader false None (Some (bytes "AB"))) split_line eq_refl
                  (conj eq_refl (ex_intro _ (bytes "AB") eq_refl)) eq_refl).
    assert (Hc : caught_up (exec split_line
                   (reader (P:=GetlineParser) false None (Some (bytes "AB")))).1).
    { eexists. split; [by vm_compute|]. split; closed_run. }
    specialize (H Hc). vm_compute in H. discriminate H.
  - intros H.
    specialize (H (reader false None (Some (line "A"))) late_append eq_refl
                  (conj eq_refl (ex_intro _ (line "A") eq_refl)) eq_refl).
    assert (Hc : caught_up (exec late_append
                   (reader (P:=LineParser) false None (Some (line "A")))).1).
    { eexists. split; [by vm_compute|]. split; closed_run. }
    specialize (H Hc). vm_compute in H. discriminate H.
Qed.

(** C4 at work: the same path is a no-op; a new path on a reader that
    is not running is stored and announced and nothing runs afterwards; a
    new path on a reader whose thread waits in the pause loop is stored
    and announced once the thread has returned, four statements later. *)
Lemma setLogFilePath_stops_and_renames_witness :
  call (setLogFilePath log) (reader (P:=LineParser) true None None) =
  (reader true None None, []) ∧
  (call (setLogFilePath "Other.log")
     (reader (P:=LineParser) true None (Some (line "A")))).2 =
  [Emit (logFilePathChanged "Other.log")] ∧
  thread_trace
    (exec (ticks 12)
       (call (setLogFilePath "Other.log")
          (reader (P:=LineParser) true None (Some (line "A")))).1).2 = [] ∧
  (let r := exec (ticks 9)
              (call (setLogFilePath "Other.log")
                 (reader (P:=LineParser) true (thread_at L120_wait 2)
                    (Some (line "A")))).1 in
   isRunning r.1 = false ∧ _logFilePath (self r.1) = "Other.log" ∧
   _stop (self r.1) = false ∧ path_changes r.2 = ["Other.log"]).
Proof.
  destruct (setLogFilePath_stops_and_renames (P:=LineParser)) as (H1 & H2 & H3).
  split; [apply (H1 (reader true None None))|].
  destruct (H2 (reader true None (Some (line "A"))) "Other.log"
              eq_refl ltac:(discriminate) eq_refl)
    as (_ & _ & _ & _ & E & Hq).
  split; [exact E|]. split; [by apply Hq|].
  destruct (H3 (reader true (thread_at L120_wait 2) (Some (line "A")))
              "Other.log" (ticks 9) eq_refl ltac:(discriminate) eq_refl eq_refl)
    as (_ & _ & _ & _ & Hdone & Hnine).
  cbv zeta. pose proof (Hnine ltac:(vm_compute; lia)) as Hn.
  destruct (Hdone Hn) as (_ & L & S & Pc & _).
  split; [exact Hn|]. split; [exact L|]. split; [exact S | exact Pc].
Defined.

(** C4 as worded fails: after [setLogFilePath] with another path no
    thread is running, and the thread does nothing although the file is
    there. *)
Lemma setLogFilePath_starts_nothing :
  ¬ spec_setPath_starts_loop (P:=LineParser) ∧
  isRunning (call (setLogFilePath "Other.log")
               (reader (P:=LineParser) false None (Some (line "A")))).1 = false ∧
  (exec (Invoke (setLogFilePath log) :: ticks 12)
     (fresh (P:=LineParser) {[ log := line "A" ]})).2 =
  [Emit (logFilePathChanged log)].
Proof.
  split; [|split; reflexivity].
  intros H.
  specialize (H (reader false None (Some (line "A"))) "Other.log"
                eq_refl eq_refl ltac:(discriminate)).
  vm_compute in H. discriminate H.
Qed.

(** C6 at work: a thread that waits in the pause loop only waits while
    a line is appended; a reader paused during the sleep reads once more
    at most; and a thread resumed after a line was appended during the
    pause, and another right after the resume, reads and delivers both. *)
Lemma pause_holds_after_pass_witness :
  Forall (λ e, e = CondWait 1000)
    (exec [World (Append log (line "B")); Tick; Tick; Invoke (setPause true); Tick]
       (reader (P:=LineParser) true (thread_at L120_wait 2)
          (Some (line "A")))).2 ∧
  (length (reads_of (exec (Invoke (setPause true) :: pause_then_append)
     (reader (P:=LineParser) true (thread_at L123_msleep 2)
        (Some (line "A")))).2) ≤ 1)%nat ∧
  (let r := exec (Invoke (setPause false)
                    :: ticks_with [[World (Append log (line "C"))]; []; [];
                                   []; []; []; []; []; []; []])
              (reader (P:=LineParser) true (thread_at L120_wait 2)
                 (Some (line "A" ++ line "B"))) in
   reads_of r.2 = [(2, line "B" ++ line "C")] ∧
   entries_of r.2 = [bytes "B"; bytes "C"]).
Proof.
  destruct (pause_holds_after_pass (P:=LineParser)) as (H1 & H2 & H3).
  split; [|split].
  - apply (H1 (reader true (thread_at L120_wait 2) (Some (line "A")))
              {| pc := L120_wait; parser := parser_new; offset := 2 |}
              [World (Append log (line "B")); Tick; Tick;
               Invoke (setPause true); Tick]
              eq_refl (or_intror eq_refl) eq_refl eq_refl eq_refl).
  - apply H2; reflexivity.
  - cbv zeta.
    assert (He : Forall appends_only
              [[World (Append log (line "C"))]; []; []; []; []; []; []; [];
               []; []]).
    { repeat constructor. by eexists _, _. }
    apply (H3 (reader true (thread_at L120_wait 2) (Some (line "A" ++ line "B")))
             {| pc := L120_wait; parser := parser_new; offset := 2 |}
             (line "A") (line "B")
             [World (Append log (line "C"))] [] [] [] [] [] [] [] [] []
             eq_refl eq_refl eq_refl
             (conj eq_refl (ex_intro _ (line "A" ++ line "B") eq_refl))
             ltac:(discriminate) eq_refl eq_refl He).
Defined.

(** C6 as worded fails: a reader that is paused while its thread sleeps
    after a pass opens and reads the file once more and delivers the line
    appended after the pause. *)
Lemma paused_reader_reads_once_more :
  ¬ spec_paused_is_silent (P:=LineParser) ∧
  (exec (Invoke (setPause true) :: pause_then_append)
     (reader (P:=LineParser) false (thread_at L123_msleep 2)
        (Some (line "A")))).2 =
  [Emit (pausedChanged true); MSleep 1000; IoOpen log true;
   Emit (fileSizeChanged 4); IoRead 2 (line "B");
   Emit (@newLog LineParser (bytes "B")); Emit (fileEnd 4)].
Proof.
  split; [|reflexivity].
  intros H.
  destruct (H (reader false (thread_at L123_msleep 2) (Some (line "A")))
              pause_then_append eq_refl) as [He _].
  vm_compute in He. discriminate He.
Qed.

(** C7 at work: the destructor finds the thread in the pause wait; the
    thread waits, sleeps and returns within four statements, and the stop
    flag is clear again. *)
Lemma stop_ends_loop_witness :
  (let r := exec (ticks_with [[]; [World (Append log (line "B"))]; []; []])
              (stop in_destructor
                 (reader (P:=LineParser) true (thread_at L120_wait 2)
                    (Some (line "A")))).1 in
   thread_trace r.2 = [CondWait 1000; MSleep 1000] ∧
   thread r.1 = None ∧ _stop (self r.1) = false) ∧
  thread (exec (ticks 4)
            (stop in_destructor
               (reader (P:=LineParser) true (thread_at L120_wait 2)
                  (Some (line "A")))).1).1 = None.
Proof.
  destruct (stop_ends_loop (P:=LineParser)) as (H1 & _ & H3).
  assert (Hst : stopping in_destructor log
                  (stop in_destructor
                     (reader (P:=LineParser) true (thread_at L120_wait 2)
                        (Some (line "A")))).1).
  { split; [by eexists | by repeat split]. }
  split.
  - apply (H3 in_destructor log _
             {| pc := L120_wait; parser := parser_new; offset := 2 |}
             [] [World (Append log (line "B"))] [] []
             Hst eq_refl eq_refl eq_refl eq_refl eq_refl eq_refl).
  - apply (H1 in_destructor log _
             {| pc := L120_wait; parser := parser_new; offset := 2 |} (ticks 4)
             Hst eq_refl eq_refl ltac:(vm_compute; lia)).
Defined.

(** C7 as worded fails: a stop requested while the thread is in the
    pause wait does not skip the sleep. *)
Lemma sleep_not_skipped_on_stop :
  ¬ spec_sleep_skipped (P:=LineParser) ∧
  (exec (ticks 4)
     (stop in_destructor
        (reader (P:=LineParser) true (thread_at L120_wait 2)
           (Some (line "A")))).1).2 = [CondWait 1000; MSleep 1000].
Proof.
  split; [|reflexivity].
  intros H.
  specialize (H (reader true (thread_at L120_wait 2) (Some (line "A")))
                {| pc := L120_wait; parser := parser_new; offset := 2 |}
                in_destructor (ticks 4) eq_refl eq_refl eq_refl eq_refl).
  vm_compute in H. discriminate H.
Qed.

(** ** Further runs *)

(** X3 at work: a reader is given a path, started, given another path
    while its thread runs and the first path again once the thread has
    returned; the path-changed signals are those of the three changes and
    the path at the end is the last one announced. *)
Lemma path_signals_track_path_witness :
  let r := exec (Invoke (setLogFilePath log) :: Invoke start :: ticks 3
                   ++ Invoke (setLogFilePath "Other.log") :: ticks 9
                   ++ [Invoke (setLogFilePath log)])
             (fresh (P:=LineParser) {[ log := line "A" ]}) in
  changes_from (getLogFilePath (self (fresh (P:=LineParser) {[ log := line "A" ]})))
    (path_changes r.2) (getLogFilePath (self r.1)) ∧
  path_changes r.2 = [log; "Other.log"; log].
Proof.
  split; [|reflexivity].
  apply (path_signals_track_path (P:=LineParser)
           (fresh {[ log := line "A" ]})).
  intros p Hp. discriminate Hp.
Defined.

(** X4 at work: a reader that read a file and was then given another
    path, whose file is there, has had no error and has its stop flag
    clear once [stop()] has returned. *)
Lemma stop_flag_clear_without_error_witness :
  _stop (self (exec (Invoke (setLogFilePath log) :: Invoke start :: ticks 5
                       ++ Invoke (setLogFilePath "Other.log") :: ticks 9)
                 (fresh (P:=LineParser)
                    {[ log := line "A"; "Other.log" := line "B" ]})).1) = false.
Proof.
  apply (stop_flag_clear_without_error (P:=LineParser)
           {[ log := line "A"; "Other.log" := line "B" ]}).
  - vm_compute. reflexivity.
  - intros k. vm_compute. discriminate.
Defined.

(** X6 at work: the file is not there when the thread opens it; it is
    created afterwards, the same path is set again and [start] is called,
    and the thread reads nothing. *)
Lemma same_path_retry_is_futile_witness :
  let c := reader (P:=LineParser) false (thread_at L94_open (-1)) None in
  let sched := [World (Rewrite log (line "A")); Invoke (setLogFilePath log);
                Invoke start; Tick; Tick; Tick; Tick] in
  thread_trace (exec sched (tick c).1).2 = [] ∧
  _logFilePath (self (exec sched (tick c).1).1) = log.
Proof.
  cbv zeta.
  apply (same_path_retry_is_futile (P:=LineParser)
           (reader false (thread_at L94_open (-1)) None)
           {| pc := L94_open; parser := parser_new; offset := -1 |}
           [World (Rewrite log (line "A")); Invoke (setLogFilePath log);
            Invoke start; Tick; Tick; Tick; Tick]
           eq_refl eq_refl eq_refl eq_refl).
  intros p Hp.
  repeat (apply elem_of_cons in Hp as [Hp|Hp];
          [first [discriminate Hp | by injection Hp] |]).
  by apply elem_of_nil in Hp.
Defined.

(** X7 at work: after the same failure another path, whose file is
    there, and [start] make the thread read that file from its beginning,
    with a line appended before the read. *)
Lemma other_path_then_start_reads_all_witness :
  let c := (exec [Tick; World (Rewrite "Other.log" (line "A"))]
              (reader (P:=LineParser) false (thread_at L94_open (-1)) None)).1 in
  let r := exec (Invoke (setLogFilePath "Other.log") :: Invoke start
                   :: ticks_with [[]; [World (Append "Other.log" (line "B"))];
                                  []; []; []; []; []]) c in
  _stop (self c) = true ∧
  reads_of r.2 = [(0, line "A" ++ line "B")] ∧
  entries_of r.2 = [bytes "A"; bytes "B"] ∧
  getLogFilePath (self r.1) = "Other.log".
Proof.
  cbv zeta. split; [reflexivity|].
  apply (other_path_then_start_reads_all (P:=LineParser)
           (exec [Tick; World (Rewrite "Other.log" (line "A"))]
              (reader false (thread_at L94_open (-1)) None)).1
           "Other.log"
           [] [World (Append "Other.log" (line "B"))] [] [] [] [] []
           eq_refl eq_refl ltac:(discriminate) ltac:(by vm_compute; eexists)).
  repeat constructor. by eexists _, _.
Defined.

(** X8 at work: the second pass over a file of one line that has not
    changed reads nothing at position 2, delivers nothing and announces
    offset 2 again. *)
Lemma pass_without_news_witness :
  let c := (exec (Invoke start :: ticks 11)
              (reader (P:=LineParser) false None (Some (line "A")))).1 in
  let r := exec (ticks_with [[]; [Invoke (setPause true)]; []; []; []]) c in
  thread_trace r.2 = [IoRead 2 []; Emit (fileEnd 2)] ∧
  offset <$> thread r.1 = Some 2.
Proof.
  cbv zeta.
  apply (pass_without_news (P:=LineParser)
           (exec (Invoke start :: ticks 11)
              (reader false None (Some (line "A")))).1
           {| pc := L102_tellg; parser := (parseStream parser_new (line "A")).1;
              offset := 2 |}
           [] [Invoke (setPause true)] [] [] []
           eq_refl eq_refl);
    first [ reflexivity | repeat constructor; discriminate ].
Defined.

(** X9 at work: a file of two bytes that has been read is replaced by
    one of four other bytes; the next pass reads the last two of them
    only. *)
Lemma longer_rewrite_is_not_reread_witness :
  let r := exec (World (Rewrite log (line "XYZ"))
                   :: ticks_with ([[]; []; []; []] ++ [[]; []; []; []; []]))
             (reader (P:=LineParser) false (thread_at L118_while_paused 2)
                (Some (line "A"))) in
  reads_of r.2 = [(2, line "Z")] ∧
  fileEnds_of r.2 = [4] ∧
  offset <$> thread r.1 = Some 4.
Proof.
  cbv zeta.
  apply (longer_rewrite_is_not_reread (P:=LineParser)
           (reader false (thread_at L118_while_paused 2) (Some (line "A")))
           {| pc := L118_while_paused; parser := parser_new; offset := 2 |}
           (line "XYZ") eq_refl eq_refl eq_refl eq_refl).
  vm_compute. split; discriminate.
Defined.

(** X10 at work: a reader whose thread waits in the pause loop is
    destroyed; after nine statements of the thread, with a [setPause] in
    between, the thread has returned, the flag is clear and no path
    change was announced. *)
Lemma destructor_only_stops_witness :
  let r := exec (Invoke destroy :: ticks 4 ++ Invoke (setPause false) :: ticks 5)
             (reader (P:=LineParser) true (thread_at L120_wait 2)
                (Some (line "A"))) in
  path_changes r.2 = [] ∧ isRunning r.1 = false ∧
  caller r.1 = Destroyed ∧ _stop (self r.1) = false.
Proof.
  cbv zeta.
  destruct (destructor_only_stops (P:=LineParser)
              (reader true (thread_at L120_wait 2) (Some (line "A")))
              (ticks 4 ++ Invoke (setPause false) :: ticks 5)
              eq_refl eq_refl) as (Pc & _ & _ & Hdone & Hnine).
  pose proof (Hnine ltac:(vm_compute; lia)) as Hn.
  destruct (Hdone Hn) as [K S].
  split; [exact Pc|]. split; [exact Hn|]. split; [exact K | exact S].
Defined.
